(** * periph: waveform rasterisation and input-pin conditioning

    A shallow embedding of

    - the bcm283x rasteriser ([getBit], [raster32Bits], [raster32Edges],
      [raster32Program], [raster32], [rasterBits], [rasterEdges],
      [rasterProgram], [raster]),
    - the bcm283x buffer packers ([uint32ToBitLSBF], [copyStreamToDMABuf]),
    - the gpioutil decorators ([pollEdge] and [debounced] with their
      [In], [WaitForEdge], [Read], [Real] methods, [isDenoising],
      [isDebouncing] and the [PollEdge] and [Debounce] constructors),

    followed by the properties established about them.

    Conventions.  Go's [uint32], [byte] and [time.Duration] values are
    integers in [Z]; the places where the source can wrap around are written
    out with [wrap64]/[wrapu64].  A Go slice is a [list] indexed with stdpp's
    lookup; an index out of range is a run-time panic in Go and [Panic]
    here.  A Go function returning [error] returns an [outcome]. *)

From stdpp Require Import base tactics option list numbers strings.
From Stdlib Require Import ZArith Lia.

Local Open Scope Z_scope.

(** ** Results of Go calls *)

(** [Ok a]: the call returned a nil error (and left the state [a]);
    [Err msg]: it returned [errors.New msg];
    [Panic]: it hit a run-time panic (slice index out of range). *)
Inductive outcome (A : Type) : Type :=
| Ok (a : A)
| Err (msg : string)
| Panic.
Arguments Ok {A} a.
Arguments Err {A} msg.
Arguments Panic {A}.

#[global] Instance outcome_bind : MBind outcome := λ A B f m,
  match m with
  | Ok a => f a
  | Err e => Err e
  | Panic => Panic
  end.

(** [for i := lo; i < lo + n; i++ { s = body i s }] *)
Fixpoint for_loop {St : Type} (n : nat) (lo : nat)
    (body : nat → St → outcome St) (s : St) : outcome St :=
  match n with
  | O => Ok s
  | S n' => s' ← body lo s ; for_loop n' (S lo) body s'
  end.

(** ** Machine integers *)

Definition wrap64 (z : Z) : Z := (z + 2 ^ 63) mod 2 ^ 64 - 2 ^ 63.
Definition wrapu64 (z : Z) : Z := z mod 2 ^ 64.
Definition minInt64 : Z := - 2 ^ 63.
Definition maxInt64 : Z := 2 ^ 63 - 1.

(** ** package gpio *)

Module gpio.

(** [type Level bool] with [Low = false], [High = true]. *)
Definition Level := bool.
Definition Low : Level := false.
Definition High : Level := true.

(** [type Edge int] with its four named values. *)
Inductive Edge : Set := NoEdge | RisingEdge | FallingEdge | BothEdges.

#[global] Instance Edge_eq_dec : EqDecision Edge.
Proof. solve_decision. Defined.

(** [type Pull uint8]. *)
Inductive Pull : Set := PullNoChange | Float | PullDown | PullUp.

End gpio.

(** ** package gpiostream (declarations only) *)

Module gpiostream.

(** [time.Duration]: signed 64-bit nanoseconds. *)
Abbreviation Duration := Z.

(** Modelled from the spec: the type declarations of package gpiostream
    are not part of the sources at hand.  A [BitStream] is a dense
    sequence of packed bytes, a per-bit resolution and the
    least-significant-bit-first flag; an [EdgeStream] is a resolution and
    a sequence of edge timestamps relative to the start of the stream; a
    [Program] is an ordered composition of sub-signals; [BitStreamLSB] is
    the single-channel packed stream the second raster mode reads and
    writes.  The fields keep the names the rasteriser uses
    ([Bits], [Res], [LSBF], [Edges]). *)
#[warnings="-register-all"]
Inductive Stream : Type :=
| BitStream (Bits : list Z) (Res : Duration) (LSBF : bool)
| BitStreamLSB (Bits : list Z) (Res : Duration)
| EdgeStream (Edges : list Z) (Res : Duration)
| Program (Parts : list Stream).

(** Modelled from the spec: [EdgeStream.Duration] is declared in package
    gpiostream; the spec fixes it as the last timestamp of the stream
    (zero for a stream without edges). *)
Definition EdgeStream_Duration (Edges : list Z) (Res : Duration) : Duration :=
  List.last Edges 0.

(** Modelled from the spec: [BitStreamLSB.Duration] is declared in package
    gpiostream; every bit lasts the fixed per-bit resolution. *)
Definition BitStreamLSB_Duration (Bits : list Z) (Res : Duration) : Duration :=
  wrap64 (Res * wrap64 (Z.of_nat (length Bits) * 8)).

End gpiostream.

(** ** package bcm283x: the rasteriser *)

Module bcm283x.
Import gpio gpiostream.

(** [func getBit(b byte, index int, msb bool) byte] *)
Definition getBit (b : Z) (index : Z) (msb : bool) : Z :=
  let shift := if msb then wrapu64 (7 - index) else wrapu64 index in
  Z.land (Z.shiftr b shift) 1.

(** [buf[index] |= mask; index++], repeated [k] times (the two inner
    [for k := 0; k < skip; k++] loops of [raster32Bits]). *)
Definition or_mask (mask : Z) (_ : nat) (st : list Z * nat) : outcome (list Z * nat) :=
  let '(buf, index) := st in
  match buf !! index with
  | Some w => Ok (<[index := Z.lor w mask]> buf, S index)
  | None => Panic
  end.

Definition fill (skip : Z) (mask : Z) (buf : list Z) (index : nat)
    : outcome (list Z * nat) :=
  for_loop (Z.to_nat skip) 0 (or_mask mask) (buf, index).

(** The rasteriser state: the two caller-provided buffers, mutated in
    place, and the running [index]. *)
Record rstate : Type := RState { r_clear : list Z; r_set : list Z; r_index : nat }.

(** Body of [for j := 0; j < 8; j++] for the byte [b = bits[i]]. *)
Definition raster_bit (b : Z) (msb : bool) (skip mask : Z) (j : nat) (st : rstate)
    : outcome rstate :=
  if negb (getBit b (Z.of_nat j) msb =? 0) then
    '(set', index') ← fill skip mask (r_set st) (r_index st) ;
    Ok (RState (r_clear st) set' index')
  else
    '(clear', index') ← fill skip mask (r_clear st) (r_index st) ;
    Ok (RState clear' (r_set st) index').

(** Body of [for i := 0; i < m; i++]. *)
Definition raster_byte (bits : list Z) (msb : bool) (skip mask : Z) (i : nat)
    (st : rstate) : outcome rstate :=
  match bits !! i with
  | Some b => for_loop 8 0 (raster_bit b msb skip mask) st
  | None => Panic
  end.

(** [func raster32Bits(s gpiostream.Stream, skip int, clear, set []uint32,
    mask uint32) error].  On [Ok] the pair is the final contents of
    [clear] and [set]; the error of the default case is
    [fmt.Errorf] of the text [unsupported type %T]. *)
Definition raster32Bits (s : Stream) (skip : Z) (clear set : list Z) (mask : Z)
    : outcome (list Z * list Z) :=
  match s with
  | BitStream bits _ lsbf =>
      let msb := negb lsbf in
      let m := (length clear / 8)%nat in
      let m := if (length bits <? m)%nat then length bits else m in
      st ← for_loop m 0 (raster_byte bits msb skip mask) (RState clear set 0) ;
      Ok (r_clear st, r_set st)
  | BitStreamLSB _ _ => Err "unsupported type *gpiostream.BitStreamLSB"
  | EdgeStream _ _ => Err "unsupported type *gpiostream.EdgeStream"
  | Program _ => Err "unsupported type *gpiostream.Program"
  end.

(** [buf[i] |= mask] for a single slot. *)
Definition or_at (mask : Z) (buf : list Z) (i : nat) : outcome (list Z) :=
  match buf !! i with
  | Some w => Ok (<[i := Z.lor w mask]> buf)
  | None => Panic
  end.

(** [func raster32Edges(e *gpiostream.EdgeStream, resolution time.Duration,
    clear, set []uint32, mask uint32) error].  The level [l] is the
    constant [gpio.High]; the edge list is not read. *)
Definition raster32Edges (Edges : list Z) (Res : Duration) (resolution : Duration)
    (clear set : list Z) (mask : Z) : outcome (list Z * list Z) :=
  if resolution <? Res then Err "bcm283x: resolution is too coarse"
  else if wrap64 (resolution * Z.of_nat (length clear)) <? EdgeStream_Duration Edges Res
  then Err "bcm283x: buffer is too short"
  else
    let l := High in
    for_loop (length clear) 0
      (fun i '(clear, set) =>
         if l then set' ← or_at mask set i ; Ok (clear, set')
         else clear' ← or_at mask clear i ; Ok (clear', set))
      (clear, set).

(** [func raster32Program(...) error] *)
Definition raster32Program (Parts : list Stream) (resolution : Duration)
    (clear set : list Z) (mask : Z) : outcome (list Z * list Z) :=
  Err "bcm283x: implement me".

Section Raster32.
(** [raster32] mentions an identifier [resolution] that is not among its
    parameters; it is taken from the enclosing scope. *)
Variable resolution : Duration.

(** [func raster32(s gpiostream.Stream, skip int, clear, set []uint32,
    mask uint32) error].  The [*gpiostream.Program] case calls [raster32]
    itself on the same stream, so the recursion is not structural: the
    embedding counts calls with [fuel] and yields [None] when the call
    depth exceeds it. *)
Fixpoint raster32 (fuel : nat) (s : Stream) (skip : Z) (clear set : list Z)
    (mask : Z) : option (outcome (list Z * list Z)) :=
  match fuel with
  | O => None
  | S fuel' =>
      if mask =? 0 then Some (Err "bcm283x: mask is 0")
      else if (length clear =? 0)%nat then Some (Err "bcm283x: clear buffer is empty")
      else if (length set =? 0)%nat then Some (Err "bcm283x: set buffer is empty")
      else if negb (length clear =? length set)%nat
      then Some (Err "bcm283x: clear and set buffers have different length")
      else
        match s with
        | BitStream _ _ _ => Some (raster32Bits s skip clear set mask)
        | EdgeStream edges res => Some (raster32Edges edges res resolution clear set mask)
        | Program _ => raster32 fuel' s resolution clear set mask
        | _ => Some (Err "bcm283x: unknown stream type")
        end
  end.
End Raster32.

(** [func rasterEdges(e *gpiostream.EdgeStream, out *gpiostream.BitStreamLSB) error] *)
Definition rasterEdges (Edges : list Z) (Res : Duration) (out : list Z * Duration)
    : outcome (list Z * Duration) :=
  Err "bcm283x: implement me".

(** Go's builtin [copy(dst, src)]: overwrites the first
    [min(len dst, len src)] elements of [dst]. *)
Definition copy (dst src : list Z) : list Z :=
  take (length dst) src ++ drop (length src) dst.

(** [func rasterBits(b *gpiostream.BitStreamLSB, out *gpiostream.BitStreamLSB) error] *)
Definition rasterBits (Bits : list Z) (Res : Duration) (out : list Z * Duration)
    : outcome (list Z * Duration) :=
  let '(outBits, outRes) := out in
  if negb (outRes =? Res) then Err "bcm283x: TODO: implement resolution matching"
  else if wrap64 (outRes * wrap64 (Z.of_nat (length outBits) * 8))
          <? BitStreamLSB_Duration Bits Res
  then Err "bcm283x: buffer is too short"
  else Ok (copy outBits Bits, outRes).

(** [func rasterProgram(p *gpiostream.Program, out *gpiostream.BitStreamLSB) error] *)
Definition rasterProgram (Parts : list Stream) (out : list Z * Duration)
    : outcome (list Z * Duration) :=
  Err "bcm283x: implement me".

(** [func raster(s gpiostream.Stream, out *gpiostream.BitStreamLSB) error];
    fuel as for [raster32]. *)
Fixpoint raster (fuel : nat) (s : Stream) (out : list Z * Duration)
    : option (outcome (list Z * Duration)) :=
  match fuel with
  | O => None
  | S fuel' =>
      match s with
      | BitStreamLSB bits res => Some (rasterBits bits res out)
      | EdgeStream edges res => Some (rasterEdges edges res out)
      | Program _ => raster fuel' s out
      | _ => Some (Err "bcm283x: unknown stream type")
      end
  end.

End bcm283x.

(** ** package gpioutil: poll-edge emulation and debouncing *)

Module gpioutil.
Import gpio.

(** [time.Time] as nanoseconds on the injected clock [now], and
    [time.Duration] as signed 64-bit nanoseconds. *)
Abbreviation Time := Z.
Abbreviation Duration := Z.

(** [t.Sub(u)]: the difference, saturated to the range of a Duration. *)
Definition Time_Sub (t u : Time) : Duration :=
  Z.max minInt64 (Z.min maxInt64 (t - u)).

(** [t.After(u)] *)
Definition Time_After (t u : Time) : bool := u <? t.

(** [l == m] on levels. *)
Definition Level_eqb (l m : Level) : bool := Bool.eqb l m.

(** The pins of the package seen through the [gpio.PinIO] interface.
    [Pin a] is the pointer [a] to a [gpiotest.Pin] (a raw pin, which does
    not implement [gpio.RealPin]); [LogPinIO] is gpiotest's logging
    wrapper; [pollEdge] and [debounced] are the two decorator structs, the
    first argument being the embedded [PinIO] field and the others the
    remaining fields in declaration order
    ([period], [edge] and [denoise], [debounce], [edge], [steady],
    [lastSteady], [lastGlitch]). *)
Inductive PinIO : Type :=
| Pin (a : nat)
| LogPinIO (inner : PinIO)
| pollEdge (inner : PinIO) (period : Duration) (edge : Edge)
| debounced (inner : PinIO) (denoise debounce : Duration) (edge : Edge)
    (steady : Level) (lastSteady lastGlitch : Time).

(** *** pollEdge *)

Section PollEdge.
(** [physic.Frequency.Period], declared in package physic. *)
Variable Frequency_Period : Z → Duration.

(** [func PollEdge(p gpio.PinIO, freq physic.Frequency) gpio.PinIO];
    the zero value of the [edge] field is [gpio.NoEdge]. *)
Definition PollEdge (p : PinIO) (freq : Z) : PinIO :=
  pollEdge p (Frequency_Period freq) NoEdge.
End PollEdge.

(** What the [select] of [pollEdge.WaitForEdge] receives: a tick of the
    sampling ticker, together with the level [p.PinIO.Read()] returns for
    it, or the signal on [p.die] sent by the timeout timer (armed only
    when [timeout >= 0]). *)
Inductive event : Set :=
| Tick (n : Level)
| Die.

(** The [for { select { ... } }] loop of [pollEdge.WaitForEdge], run on a
    finite trace of events; [None] when the call is still blocked after
    the last event of the trace. *)
Fixpoint wait_loop (edge : Edge) (curr : Level) (evs : list event) : option bool :=
  match evs with
  | [] => None
  | Die :: _ => Some false
  | Tick n :: evs' =>
      if negb (Level_eqb n curr) then
        match edge with
        | RisingEdge =>
            if Level_eqb n High then Some true else wait_loop edge n evs'
        | FallingEdge =>
            if Level_eqb n Low then Some true else wait_loop edge n evs'
        | BothEdges => Some true
        | NoEdge => wait_loop edge curr evs'
        end
      else wait_loop edge curr evs'
  end.

(** [func (p *pollEdge) WaitForEdge(timeout time.Duration) bool], for the
    armed [edge] of [p]; [curr] is the level of the first
    [p.PinIO.Read()]. *)
Definition pollEdge_WaitForEdge (edge : Edge) (curr : Level) (evs : list event)
    : option bool :=
  wait_loop edge curr evs.

(** *** RealPin *)

(** [Real p] is [Some r] when [p] implements [gpio.RealPin] and
    [p.Real()] returns [r], and [None] when the type assertion
    [p.(gpio.RealPin)] fails.  [LogPinIO.Real] returns its embedded pin;
    [pollEdge.Real] and [debounced.Real] ask the embedded pin first. *)
Fixpoint Real (p : PinIO) : option PinIO :=
  match p with
  | Pin _ => None
  | LogPinIO inner => Some inner
  | pollEdge inner _ _ =>
      Some (match Real inner with Some r => r | None => inner end)
  | debounced inner _ _ _ _ _ _ =>
      Some (match Real inner with Some r => r | None => inner end)
  end.

(** *** debounced *)

(** The fields of a [debounced] other than the embedded pin. *)
Record dstate : Type := DState {
  denoise : Duration;
  debounce : Duration;
  edge : Edge;
  steady : Level;
  lastSteady : Time;
  lastGlitch : Time
}.

Definition set_steady (l : Level) (n : Time) (d : dstate) : dstate :=
  DState (denoise d) (debounce d) (edge d) l n (lastGlitch d).
Definition set_lastGlitch (n : Time) (d : dstate) : dstate :=
  DState (denoise d) (debounce d) (edge d) (steady d) (lastSteady d) n.

Definition debounced_of (p : PinIO) (d : dstate) : PinIO :=
  debounced p (denoise d) (debounce d) (edge d) (steady d) (lastSteady d)
    (lastGlitch d).

(** [func Debounce(p gpio.PinIO, denoise, debounce time.Duration,
    edge gpio.Edge) (gpio.PinIO, error)].  [in_err] is the error returned
    by [p.In(gpio.PullNoChange, gpio.BothEdges)] ([None] for nil), [l] the
    level returned by [p.Read()] and [t] the time returned by [now()]. *)
Definition Debounce (p : PinIO) (denoise debounce : Duration) (edge : Edge)
    (in_err : option string) (l : Level) (t : Time) : outcome PinIO :=
  if (denoise =? 0) && (debounce =? 0) then Ok p
  else
    match in_err with
    | Some err => Err err
    | None => Ok (debounced p denoise debounce edge l t t)
    end.

(** [func (d *debounced) Read() gpio.Level]: [l] is the level returned by
    [d.PinIO.Read()] and [now] the time the injected clock returns if the
    slow path consults it.  Returns the level and the state left behind. *)
Definition debounced_Read (d : dstate) (l : Level) (now : Time) : Level * dstate :=
  if Level_eqb l (steady d) then
    let d :=
      if Time_After (lastGlitch d) (lastSteady d)
      then set_lastGlitch (lastSteady d) d else d in
    (steady d, d)
  else
    let n := now in
    let delta := Time_Sub (lastGlitch d) (lastSteady d) in
    if 0 <=? delta then
      let d :=
        if denoise d <=? delta then set_steady l n d
        else set_lastGlitch n d in
      (steady d, d)
    else
      let delta := wrap64 (- delta) in
      let d := if debounce d <=? delta then set_steady l n d else d in
      (steady d, d).

(** [func (d *debounced) WaitForEdge(timeout time.Duration) bool]:
    [native] is the result of [d.PinIO.WaitForEdge(timeout)], [l] the level
    then returned by [d.PinIO.Read()] and [n] the time returned by
    [now()]. *)
Definition debounced_WaitForEdge (d : dstate) (native : bool) (l : Level) (n : Time)
    : bool * dstate :=
  if negb native then (false, d)
  else
    let d := DState (denoise d) (debounce d) (edge d) l (lastSteady d) (lastGlitch d) in
    let d := DState (denoise d) (debounce d) (edge d) (steady d) n (lastGlitch d) in
    let d := DState (denoise d) (debounce d) (edge d) (steady d) (lastSteady d) n in
    (true, d).

(** A sequence of [Read] calls on one debounced pin: each element is the
    raw level and the clock value of one call; the result lists the
    levels returned. *)
Fixpoint reads (d : dstate) (calls : list (Level * Time)) : list Level :=
  match calls with
  | [] => []
  | (l, n) :: calls' =>
      let '(r, d') := debounced_Read d l n in
      r :: reads d' calls'
  end.

(** The state [Debounce] builds (its success path past the fast one). *)
Definition initial (denoise debounce : Duration) (edge : Edge) (l : Level) (t : Time)
    : dstate :=
  DState denoise debounce edge l t t.

End gpioutil.

(** ** Vocabulary of the statements *)

Module props.
Import gpio gpiostream bcm283x gpioutil.

(** Logical bit [j] of a packed byte sequence: byte [j / 8], scanned from
    bit 7 down unless [lsbf], in which case from bit 0 up.  A position
    past the end reads as 0. *)
Definition stream_bit (bits : list Z) (lsbf : bool) (j : nat) : bool :=
  match bits !! (j / 8)%nat with
  | Some b =>
      Z.testbit b (if lsbf then Z.of_nat (j mod 8) else 7 - Z.of_nat (j mod 8))
  | None => false
  end.

(** A word carries the lane when all bits of [mask] are set in it, and is
    lane-free when none is. *)
Definition lane_count (mask : Z) (buf : list Z) : nat :=
  length (filter (λ w, Z.land w mask = mask) buf).

Definition lane_free (mask : Z) (buf : list Z) : Prop :=
  Forall (λ w, Z.land w mask = 0) buf.

(** The word [buf !! p] with the lane mask or-ed in. *)
Definition lane_or (mask : Z) (buf : list Z) (p : nat) : option Z :=
  (λ w, Z.lor w mask) <$> buf !! p.

(** [clear'] and [set'] are [clear] and [set] with the first [J] logical
    bits of the stream rastered at [k] words per bit: word [j * k + r]
    ([r < k]) of bit [j] has the mask or-ed into [set'] when the bit is 1
    and into [clear'] when it is 0, its twin word is untouched, and so is
    every word from [J * k] on. *)
Definition rastered (bits : list Z) (lsbf : bool) (mask : Z) (k : nat)
    (clear set : list Z) (J : nat) (clear' set' : list Z) : Prop :=
  length clear' = length clear ∧ length set' = length set ∧
  (∀ j r, (j < J)%nat → (r < k)%nat →
     let p := (j * k + r)%nat in
     if stream_bit bits lsbf j
     then set' !! p = lane_or mask set p ∧ clear' !! p = clear !! p
     else clear' !! p = lane_or mask clear p ∧ set' !! p = set !! p) ∧
  (∀ p, (J * k ≤ p)%nat → clear' !! p = clear !! p ∧ set' !! p = set !! p).

(** Loop invariant of [raster32Bits] after [J] logical bits. *)
Definition raster_inv (bits : list Z) (lsbf : bool) (mask : Z) (k : nat)
    (clear set : list Z) (J : nat) (st : rstate) : Prop :=
  r_index st = (J * k)%nat ∧
  rastered bits lsbf mask k clear set J (r_clear st) (r_set st) ∧
  (mask ≠ 0 → lane_free mask clear → lane_free mask set →
   (lane_count mask (r_set st) + lane_count mask (r_clear st) = J * k)%nat).

(** The levels a [pollEdge.WaitForEdge] call has sampled after a prefix of
    its trace: the most recent tick, or the initial reading. *)
Fixpoint last_seen (curr : Level) (evs : list event) : Level :=
  match evs with
  | [] => curr
  | Tick n :: evs' => last_seen n evs'
  | Die :: evs' => last_seen curr evs'
  end.

Definition is_tick (e : event) : Prop :=
  match e with Tick _ => True | Die => False end.

(** A stack of decorators, outermost first. *)
Inductive layer : Type :=
| LDebounce (d : dstate)
| LPoll (period : gpioutil.Duration) (edge : Edge).

Definition wrap1 (l : layer) (p : PinIO) : PinIO :=
  match l with
  | LDebounce d => debounced_of p d
  | LPoll period edge => pollEdge p period edge
  end.

Definition wrap (ls : list layer) (raw : PinIO) : PinIO :=
  foldr wrap1 raw ls.

End props.

(** ** package bcm283x, continued: packed buffers *)

Module bcm283x_dma.
Import gpio gpiostream bcm283x.

(** Truncation to [uint8] and [uint32]. *)
Definition u8 (z : Z) : Z := z mod 2 ^ 8.
Definition u32 (z : Z) : Z := z mod 2 ^ 32.

(** [d[i]] for an [int] index: out of range is a panic. *)
Definition index (d : list Z) (i : Z) : outcome Z :=
  if i <? 0 then Panic
  else match d !! Z.to_nat i with
       | Some v => Ok v
       | None => Panic
       end.

(** [d[a:]]: the low bound must lie within [0 .. len(d)]. *)
Definition slice_from (d : list Z) (a : Z) : outcome (list Z) :=
  if (a <? 0) || (Z.of_nat (length d) <? a) then Panic
  else Ok (drop (Z.to_nat a) d).

(** [(d[off]&mask)>>bit<<j] in [uint8] arithmetic. *)
Definition lane_bit (d : list Z) (off : Z) (mask bit j : Z) : outcome Z :=
  v ← index d off ;
  Ok (u8 (Z.shiftl (Z.shiftr (Z.land v mask) bit) j)).

(** Body of [for i := range w] in [uint32ToBitLSBF]; the state is [w] and
    the moving slice [d]. *)
Definition unpack_byte (mask bit : Z) (skip : Z) (i : nat) (st : list Z * list Z)
    : outcome (list Z * list Z) :=
  let '(w, d) := st in
  b0 ← lane_bit d 0 mask bit 0 ;
  b1 ← lane_bit d (wrap64 (skip * 1)) mask bit 1 ;
  b2 ← lane_bit d (wrap64 (skip * 2)) mask bit 2 ;
  b3 ← lane_bit d (wrap64 (skip * 3)) mask bit 3 ;
  b4 ← lane_bit d (wrap64 (skip * 4)) mask bit 4 ;
  b5 ← lane_bit d (wrap64 (skip * 5)) mask bit 5 ;
  b6 ← lane_bit d (wrap64 (skip * 6)) mask bit 6 ;
  b7 ← lane_bit d (wrap64 (skip * 7)) mask bit 7 ;
  let v := Z.lor b0 (Z.lor b1 (Z.lor b2 (Z.lor b3
             (Z.lor b4 (Z.lor b5 (Z.lor b6 b7)))))) in
  d' ← slice_from d (wrap64 (skip * 8)) ;
  Ok (<[i := v]> w, d').

(** [func uint32ToBitLSBF(w []byte, d []uint8, bit uint8, skip int)]: the
    result is the final contents of [w]. *)
Definition uint32ToBitLSBF (w d : list Z) (bit : Z) (skip : Z) : outcome (list Z) :=
  let x := bit / 8 in
  d ← slice_from d x ;
  let bit := u8 (bit - u8 (8 * x)) in
  let mask := u8 (Z.shiftl 1 bit) in
  st ← for_loop (length w) 0 (unpack_byte mask bit skip) (w, d) ;
  Ok st.1.

(** [binary.BigEndian.Uint32(b)] *)
Definition BigEndian_Uint32 (b : list Z) : outcome Z :=
  match b with
  | b0 :: b1 :: b2 :: b3 :: _ =>
      Ok (Z.lor b3 (Z.lor (Z.shiftl b2 8) (Z.lor (Z.shiftl b1 16) (Z.shiftl b0 24))))
  | _ => Panic
  end.

(** [dst[i] = v] *)
Definition store (dst : list Z) (i : nat) (v : Z) : outcome (list Z) :=
  match dst !! i with
  | Some _ => Ok (<[i := v]> dst)
  | None => Panic
  end.

(** [last |= uint32(v.Bits[i*4+j]) << uint32(8*(3-j))], the body of the
    tail loop of [copyStreamToDMABuf]. *)
Definition tail_byte (bits : list Z) (i : nat) (j : nat) (last : Z) : outcome Z :=
  match bits !! (i * 4 + j)%nat with
  | Some b => Ok (Z.lor last (u32 (Z.shiftl b (8 * (3 - Z.of_nat j)))))
  | None => Panic
  end.

(** [func copyStreamToDMABuf(w gpiostream.Stream, dst []uint32) error] *)
Definition copyStreamToDMABuf (w : Stream) (dst : list Z) : outcome (list Z) :=
  match w with
  | BitStream bits _ lsbf =>
      if lsbf then Err "TODO(simokawa): handle BitStream.LSBF"
      else
        let n := (length bits / 4)%nat in
        dst ← for_loop n 0
                (fun i dst => v ← BigEndian_Uint32 (drop (i * 4) bits) ; store dst i v)
                dst ;
        let i := n in
        let mod_ := (length bits mod 4)%nat in
        if (0 <? mod_)%nat then
          last ← for_loop mod_ 0 (tail_byte bits i) 0 ;
          store dst i last
        else Ok dst
  | EdgeStream _ _ => Err "TODO(simokawa): handle EdgeStream"
  | _ => Err "unsupported Stream type"
  end.

End bcm283x_dma.

(** ** package gpioutil, continued *)

Module gpioutil_more.
Import gpio gpioutil.

(** [func (p *pollEdge) In(pull gpio.Pull) error]: the new value of the
    [edge] field and the error, [in_err] being what [p.PinIO.In(pull)]
    returns. *)
Definition pollEdge_In (edge : Edge) (pull : Pull) (in_err : option string)
    : Edge * option string :=
  (NoEdge, in_err).

(** [func (d *debounced) In(pull gpio.Pull, edge gpio.Edge) error]:
    [in_err] is what [d.PinIO.In(pull, gpio.BothEdges)] returns, [l] and [n]
    are the raw level and the clock value of the [d.Read()] it performs,
    and [t] the time returned by the [now()] that follows. *)
Definition debounced_In (d : dstate) (pull : Pull) (e : Edge)
    (in_err : option string) (l : Level) (n t : Time) : dstate * option string :=
  let err := in_err in
  let d := DState (denoise d) (debounce d) e (steady d) (lastSteady d) (lastGlitch d) in
  let '(r, d) := debounced_Read d l n in
  let d := DState (denoise d) (debounce d) (edge d) r (lastSteady d) (lastGlitch d) in
  let d := DState (denoise d) (debounce d) (edge d) (steady d) t (lastGlitch d) in
  let d := DState (denoise d) (debounce d) (edge d) (steady d) (lastSteady d) t in
  (d, err).

(** [func (d *debounced) isDenoising() time.Duration] *)
Definition isDenoising (d : dstate) : Duration :=
  let delta := Time_Sub (lastGlitch d) (lastSteady d) in
  if (0 <=? delta) && (delta <? denoise d) then wrap64 (denoise d - delta) else 0.

(** [func (d *debounced) isDebouncing() time.Duration] *)
Definition isDebouncing (d : dstate) : Duration :=
  let delta := Time_Sub (lastSteady d) (lastGlitch d) in
  if (0 <=? delta) && (delta <? debounce d) then wrap64 (debounce d - delta) else 0.

(** A sequence of [Read] calls, keeping the state reached. *)
Fixpoint run_reads (d : dstate) (calls : list (Level * Time)) : dstate :=
  match calls with
  | [] => d
  | (l, n) :: calls' => run_reads (debounced_Read d l n).2 calls'
  end.

End gpioutil_more.

(** ** Vocabulary of the further statements *)

Module props_more.
Import gpio gpioutil.

(** The bytes of a [[]uint32] in memory order, least significant first. *)
Definition le_bytes (ws : list Z) : list Z :=
  flat_map (λ w, [w mod 256; (w / 2 ^ 8) mod 256; (w / 2 ^ 16) mod 256;
                  (w / 2 ^ 24) mod 256]) ws.

(** Every element is a byte. *)
Definition bytes (bs : list Z) : Prop := Forall (λ b, 0 ≤ b < 256) bs.

(** The big-endian word made of bytes [4q .. 4q+3] of a byte sequence, a
    missing byte counting as zero. *)
Definition be_word (bits : list Z) (q : nat) : Z :=
  let b j := nth (q * 4 + j) bits 0 in
  Z.lor (b 3%nat) (Z.lor (Z.shiftl (b 2%nat) 8)
                     (Z.lor (Z.shiftl (b 1%nat) 16) (Z.shiftl (b 0%nat) 24))).

(** The byte whose bit [j] is bit [bit] of element [base + skip * j] of
    [d], a missing element counting as zero. *)
Definition gathered (d : list Z) (base skip : nat) (bit : Z) : Z :=
  let t (j : nat) :=
    Z.shiftl (Z.b2z (Z.testbit (nth (base + skip * j) d 0) bit)) (Z.of_nat j) in
  Z.lor (t 0%nat) (Z.lor (t 1%nat) (Z.lor (t 2%nat) (Z.lor (t 3%nat)
    (Z.lor (t 4%nat) (Z.lor (t 5%nat) (Z.lor (t 6%nat) (t 7%nat))))))).

(** The value of the [curr] variable of [pollEdge.WaitForEdge] after a run
    of ticks the loop did not return on. *)
Fixpoint curr_after (edge : Edge) (curr : Level) (evs : list event) : Level :=
  match evs with
  | [] => curr
  | Tick n :: evs' =>
      curr_after edge
        (match edge with
         | RisingEdge | FallingEdge => n
         | _ => curr
         end) evs'
  | Die :: evs' => curr_after edge curr evs'
  end.

(** The [edge] field of a decorator ([gpio.NoEdge] for a pin without one). *)
Definition armed (p : PinIO) : Edge :=
  match p with
  | pollEdge _ _ e => e
  | debounced _ _ _ e _ _ _ => e
  | _ => NoEdge
  end.

End props_more.

(** ** Properties of the rasteriser *)

Module bcm283x_props.
Import gpio gpiostream bcm283x props.

Local Open Scope nat_scope.

(** Invariant rule for [for_loop]. *)
Lemma for_loop_inv {St : Type} (I : nat → St → Prop) n lo
    (body : nat → St → outcome St) s :
  I lo s →
  (∀ i t, lo ≤ i < lo + n → I i t → ∃ t', body i t = Ok t' ∧ I (S i) t') →
  ∃ s', for_loop n lo body s = Ok s' ∧ I (lo + n) s'.
Proof.
  revert lo s. induction n as [|n IH]; intros lo s H0 Hstep.
  - exists s. rewrite Nat.add_0_r. by split.
  - destruct (Hstep lo s) as (t & Hb & Ht); [lia | done |].
    destruct (IH (S lo) t) as (s' & Hl & Hs'); [done | |].
    + intros i u Hi Hu. apply Hstep; [lia | done].
    + exists s'. split.
      * simpl. rewrite Hb. exact Hl.
      * by replace (lo + S n) with (S lo + n) by lia.
Qed.

Lemma land_lor_mask w mask : Z.land (Z.lor w mask) mask = mask.
Proof.
  rewrite Z.land_lor_distr_l, Z.land_diag.
  apply Z.bits_inj'. intros i _.
  rewrite Z.lor_spec, Z.land_spec. by destruct (Z.testbit w i), (Z.testbit mask i).
Qed.

Lemma lane_count_insert mask (buf : list Z) i w v :
  buf !! i = Some w →
  Z.land w mask ≠ mask →
  Z.land v mask = mask →
  lane_count mask (<[i:=v]> buf) = S (lane_count mask buf).
Proof.
  unfold lane_count. revert i. induction buf as [|x buf IH]; intros i Hi Hw Hv.
  - done.
  - destruct i as [|i]; simpl in *.
    + injection Hi as ->. rewrite !filter_cons.
      destruct (decide (Z.land v mask = mask)); [|done].
      by destruct (decide (Z.land w mask = mask)).
    + rewrite !filter_cons.
      destruct (decide (Z.land x mask = mask)); simpl; by rewrite IH.
Qed.

Lemma lane_free_count mask (buf : list Z) :
  mask ≠ 0%Z → lane_free mask buf → lane_count mask buf = 0.
Proof.
  intros Hm. unfold lane_free, lane_count. induction 1 as [|x buf Hx _ IH]; [done|].
  rewrite filter_cons. destruct (decide (Z.land x mask = mask)); [congruence | done].
Qed.

Lemma getBit_testbit b (j : nat) msb :
  j < 8 →
  negb (getBit b (Z.of_nat j) msb =? 0)%Z
  = Z.testbit b (if msb then 7 - Z.of_nat j else Z.of_nat j).
Proof.
  intros Hj. unfold getBit, wrapu64.
  rewrite !Z.mod_small by lia.
  set (s := if msb then (7 - Z.of_nat j)%Z else Z.of_nat j).
  assert (0 ≤ s)%Z as Hs by (subst s; destruct msb; lia).
  change 1%Z with (Z.ones 1). rewrite Z.land_ones by lia.
  change (2 ^ 1)%Z with 2%Z. rewrite <- Z.bit0_mod, Z.shiftr_spec by lia.
  rewrite Z.add_0_l. by destruct (Z.testbit b s).
Qed.

Lemma fill_spec skip mask (buf : list Z) index :
  index + Z.to_nat skip ≤ length buf →
  ∃ buf', fill skip mask buf index = Ok (buf', index + Z.to_nat skip)
    ∧ length buf' = length buf
    ∧ (∀ p, index ≤ p < index + Z.to_nat skip → buf' !! p = lane_or mask buf p)
    ∧ (∀ p, ¬ (index ≤ p < index + Z.to_nat skip) → buf' !! p = buf !! p)
    ∧ ((∀ p w, index ≤ p < index + Z.to_nat skip →
               buf !! p = Some w → Z.land w mask ≠ mask) →
       lane_count mask buf' = lane_count mask buf + Z.to_nat skip).
Proof.
  intros Hfit. unfold fill.
  destruct (for_loop_inv
    (λ r (st : list Z * nat),
       st.2 = index + r ∧ length st.1 = length buf
       ∧ (∀ p, index ≤ p < index + r → st.1 !! p = lane_or mask buf p)
       ∧ (∀ p, ¬ (index ≤ p < index + r) → st.1 !! p = buf !! p)
       ∧ ((∀ p w, index ≤ p < index + r →
                  buf !! p = Some w → Z.land w mask ≠ mask) →
          lane_count mask st.1 = lane_count mask buf + r))
    (Z.to_nat skip) 0 (or_mask mask) (buf, index)) as ([buf' idx'] & Hrun & Hinv).
  - simpl. split_and!; [lia | done | intros; lia | done | intros; lia].
  - intros r [b idx] Hr (Hidx & Hlb & Hin & Hout & Hcnt). simpl in *. subst idx.
    destruct (lookup_lt_is_Some_2 b (index + r)) as [w Hw]; [lia|].
    assert (buf !! (index + r) = Some w) as Hw0 by (rewrite <- Hout; [done | lia]).
    exists (<[index + r := Z.lor w mask]> b, S (index + r)).
    rewrite Hw. split; [done|]. simpl.
    split; [lia|]. split; [by rewrite length_insert|].
    split; [|split].
    + intros p Hp. destruct (decide (p = index + r)) as [->|Hne].
      * rewrite list_lookup_insert_eq by lia. unfold lane_or. by rewrite Hw0.
      * rewrite list_lookup_insert_ne by done. apply Hin. lia.
    + intros p Hp. rewrite list_lookup_insert_ne by lia. apply Hout. lia.
    + intros Hfree.
      rewrite (lane_count_insert mask b _ w).
      * rewrite Hcnt; [lia|]. intros p v Hp. apply Hfree. lia.
      * done.
      * apply (Hfree (index + r)); [lia | done].
      * apply land_lor_mask.
  - simpl in Hinv. destruct Hinv as (-> & Hl & Hin & Hout & Hcnt).
    exists buf'. by rewrite Hrun.
Qed.

Section Bits.
Variables (bits : list Z) (lsbf : bool) (skip mask : Z) (clear set : list Z).
Hypothesis Hlen : length clear = length set.

Abbreviation k := (Z.to_nat skip).
Abbreviation inv := (raster_inv bits lsbf mask k clear set).

Lemma raster_inv_init : inv 0 (RState clear set 0).
Proof.
  unfold raster_inv, rastered. split_and!; simpl; try done.
  all: try (intros; lia).
  intros Hm Hc Hs. by rewrite !lane_free_count.
Qed.

(** One logical bit: the body of the [j] loop. *)
Lemma raster_bit_spec b j J st :
  negb (getBit b (Z.of_nat j) (negb lsbf) =? 0)%Z = stream_bit bits lsbf J →
  S J * k ≤ length clear →
  inv J st →
  ∃ st', raster_bit b (negb lsbf) skip mask j st = Ok st' ∧ inv (S J) st'.
Proof.
  intros Hbit Hfit (Hidx & (Hlc & Hls & Hin & Hout) & Hcnt).
  unfold raster_bit. rewrite Hbit, Hidx.
  destruct (stream_bit bits lsbf J) eqn:HJ.
  - destruct (fill_spec skip mask (r_set st) (J * k))
      as (set' & -> & Hl' & Hin' & Hout' & Hcnt'); [lia|].
    eexists. split; [done|].
    unfold raster_inv, rastered. split_and!; simpl; try done; try lia.
    + intros j0 r Hj0 Hr. destruct (decide (j0 = J)) as [->|Hne].
      * rewrite HJ. destruct (Hout (J * k + r)) as [Hc Hs]; [lia|].
        split; [|done]. rewrite Hin' by lia. unfold lane_or. by rewrite Hs.
      * specialize (Hin j0 r). simpl in Hin. rewrite Hout' by nia.
        apply Hin; lia.
    + intros q Hq. rewrite Hout' by lia. apply Hout. lia.
    + intros Hm Hc Hs. rewrite Hcnt'; [specialize (Hcnt Hm Hc Hs); lia|].
      intros q w Hq Hw. destruct (Hout q) as [_ Hsq]; [lia|].
      rewrite Hsq in Hw. unfold lane_free in Hs.
      rewrite Forall_lookup in Hs. specialize (Hs q w Hw). simpl in Hs. congruence.
  - destruct (fill_spec skip mask (r_clear st) (J * k))
      as (clear' & -> & Hl' & Hin' & Hout' & Hcnt'); [lia|].
    eexists. split; [done|].
    unfold raster_inv, rastered. split_and!; simpl; try done; try lia.
    + intros j0 r Hj0 Hr. destruct (decide (j0 = J)) as [->|Hne].
      * rewrite HJ. destruct (Hout (J * k + r)) as [Hc Hs]; [lia|].
        split; [|done]. rewrite Hin' by lia. unfold lane_or. by rewrite Hc.
      * specialize (Hin j0 r). simpl in Hin. rewrite Hout' by nia.
        apply Hin; lia.
    + intros q Hq. rewrite Hout' by lia. apply Hout. lia.
    + intros Hm Hc Hs. rewrite Hcnt'; [specialize (Hcnt Hm Hc Hs); lia|].
      intros q w Hq Hw. destruct (Hout q) as [Hcq _]; [lia|].
      rewrite Hcq in Hw. unfold lane_free in Hc.
      rewrite Forall_lookup in Hc. specialize (Hc q w Hw). simpl in Hc. congruence.
Qed.

(** One byte: the body of the [i] loop. *)
Lemma raster_byte_spec i b st :
  bits !! i = Some b →
  8 * S i * k ≤ length clear →
  inv (8 * i) st →
  ∃ st', raster_byte bits (negb lsbf) skip mask i st = Ok st' ∧ inv (8 * S i) st'.
Proof.
  intros Hb Hfit Hinv. unfold raster_byte. rewrite Hb.
  destruct (for_loop_inv (λ j t, inv (8 * i + j) t) 8 0
              (raster_bit b (negb lsbf) skip mask) st) as (st' & Hrun & Hst').
  - by rewrite Nat.add_0_r.
  - intros j t Hj Ht.
    replace (8 * i + S j) with (S (8 * i + j)) by lia.
    apply raster_bit_spec; [|nia|done].
    rewrite getBit_testbit by lia. unfold stream_bit.
    replace ((8 * i + j) / 8) with i
      by (apply (Nat.div_unique _ 8 i j); lia).
    replace ((8 * i + j) mod 8) with j
      by (apply (Nat.mod_unique _ 8 i j); lia).
    rewrite Hb. by destruct lsbf.
  - exists st'. split; [done|].
    by replace (8 * S i) with (8 * i + (0 + 8)) by lia.
Qed.

(** The whole of [raster32Bits]: it rasters the first
    [m = min (len clear / 8) (len bits)] bytes, provided the
    [8 * m * k] words they need exist. *)
Lemma raster32Bits_spec res :
  let m := Nat.min (length clear / 8) (length bits) in
  8 * m * k ≤ length clear →
  ∃ clear' set',
    raster32Bits (BitStream bits res lsbf) skip clear set mask = Ok (clear', set')
    ∧ inv (8 * m) (RState clear' set' (8 * m * k)).
Proof.
  intros m Hfit. unfold raster32Bits.
  assert ((if length bits <? length clear / 8
           then length bits else length clear / 8) = m) as ->.
  { subst m. destruct (Nat.ltb_spec (length bits) (length clear / 8)); lia. }
  destruct (for_loop_inv (λ i t, inv (8 * i) t) m 0
              (raster_byte bits (negb lsbf) skip mask) (RState clear set 0))
    as (st' & Hrun & Hst').
  - apply raster_inv_init.
  - intros i t Hi Ht.
    destruct (lookup_lt_is_Some_2 bits i) as [b Hb]; [lia|].
    apply (raster_byte_spec i b); [done | nia | done].
  - rewrite Hrun. simpl in *. destruct st' as [c s ix].
    exists c, s. split; [done|]. destruct Hst' as (Hix & ?). simpl in Hix.
    subst ix. by split.
Qed.
End Bits.

(** C2 (as stated, refuted): a 16-bit stream rastered at one word per bit
    into 8-word buffers returns nil after writing 8 positions, not 16: the
    byte count is cut to [len(clear) / 8]. *)
Lemma raster32Bits_short_buffer_truncates :
  raster32Bits (BitStream [255; 255]%Z 1 false) 1 (replicate 8 0%Z) (replicate 8 0%Z) 1
  = Ok (replicate 8 0%Z, replicate 8 1%Z)
  ∧ lane_count 1 (replicate 8 1%Z) + lane_count 1 (replicate 8 0%Z)
    ≠ 8 * length [255; 255]%Z * Z.to_nat 1.
Proof. split; [reflexivity | vm_compute; lia]. Qed.

(** C2 (amended): for a BitStream of [n = 8 * len bits] bits and a
    replication factor [k] whose [n * k] words fit in the equal-length
    buffers, [raster32Bits] returns nil and has written exactly the first
    [n * k] words: for each logical bit [j], taken most-significant-bit
    first within each byte unless LSBF is set, the [k] consecutive words
    [j * k .. j * k + k - 1] get the mask or-ed into [set] if the bit is 1
    and into [clear] if it is 0; nothing else changes; and when the mask
    is nonzero and the buffers were lane-free, exactly [n * k] words carry
    the lane afterwards. *)
Theorem raster32Bits_sets_n_times_k bits res lsbf skip (clear set : list Z) mask :
  length clear = length set →
  8 * length bits * Z.to_nat skip ≤ length clear →
  ∃ clear' set',
    raster32Bits (BitStream bits res lsbf) skip clear set mask = Ok (clear', set')
    ∧ rastered bits lsbf mask (Z.to_nat skip) clear set (8 * length bits) clear' set'
    ∧ (mask ≠ 0%Z → lane_free mask clear → lane_free mask set →
       lane_count mask set' + lane_count mask clear'
       = 8 * length bits * Z.to_nat skip).
Proof.
  intros Hlen Hfit.
  set (m := Nat.min (length clear / 8) (length bits)).
  destruct (raster32Bits_spec bits lsbf skip mask clear set Hlen res)
    as (clear' & set' & Hrun & Hidx & Hr & Hcnt).
  { fold m. assert (m ≤ length bits) by lia. nia. }
  fold m in Hr, Hcnt. simpl in Hr, Hcnt.
  exists clear', set'. split; [done|].
  destruct (decide (Z.to_nat skip = 0)) as [Hk|Hk].
  - rewrite Hk in *. destruct Hr as (Hlc & Hls & _ & Hout).
    split.
    + split_and!; try done; [intros; lia|].
      intros q _. apply Hout. lia.
    + intros Hm Hc Hs. rewrite (Hcnt Hm Hc Hs). lia.
  - assert (m = length bits) as Hm.
    { assert (length bits ≤ length clear / 8); [|lia].
      apply Nat.div_le_lower_bound; [lia|nia]. }
    rewrite Hm in *. split; [done|].
    intros ???. rewrite Hcnt by done. lia.
Qed.

(** The amended C2 statement at one byte [0xB1], two words per bit, lane
    mask 4 and 16-word buffers. *)
Lemma raster32Bits_sets_n_times_k_witness :
  length (replicate 16 0%Z) = length (replicate 16 0%Z)
  ∧ 8 * length [177%Z] * Z.to_nat 2 ≤ length (replicate 16 0%Z)
  ∧ ∃ clear' set',
      raster32Bits (BitStream [177%Z] 1000 false) 2 (replicate 16 0%Z)
        (replicate 16 0%Z) 4 = Ok (clear', set')
      ∧ rastered [177%Z] false 4 (Z.to_nat 2) (replicate 16 0%Z) (replicate 16 0%Z)
          (8 * length [177%Z]) clear' set'
      ∧ (4%Z ≠ 0%Z → lane_free 4 (replicate 16 0%Z) → lane_free 4 (replicate 16 0%Z) →
         lane_count 4 set' + lane_count 4 clear' = 8 * length [177%Z] * Z.to_nat 2).
Proof.
  split; [reflexivity|]. split; [vm_compute; lia|].
  apply (raster32Bits_sets_n_times_k [177%Z] 1000 false 2
           (replicate 16 0%Z) (replicate 16 0%Z) 4).
  - reflexivity.
  - vm_compute; lia.
Defined.

(** C10 (code evaluated at the failing input): with one byte, skip 2 and
    8-word buffers the loop bound is [min (8 / 8) 1 = 1] byte, that is
    [1 * 8 * 2 = 16] words, and the write at index 8 is out of range. *)
Theorem raster32Bits_index_out_of_range :
  raster32Bits (BitStream [255%Z] 1 false) 2 (replicate 8 0%Z) (replicate 8 0%Z) 1
  = Panic
  ∧ length (replicate 8 0%Z)
    < Nat.min (length (replicate 8 0%Z) / 8) (length [255%Z]) * 8 * Z.to_nat 2.
Proof. split; [reflexivity | vm_compute; lia]. Qed.

(** C3 (code evaluated at the failing inputs): a requested resolution of
    1µs that is finer than the stream's 2µs is rejected as too coarse,
    and a requested resolution of 2µs that is coarser than the stream's
    1µs passes the check. *)
Theorem raster32Edges_resolution_check_inverted :
  raster32Edges [2000%Z] 2000 1000 [0; 0]%Z [0; 0]%Z 1
  = Err "bcm283x: resolution is too coarse"
  ∧ raster32Edges [2000%Z] 1000 2000 [0; 0]%Z [0; 0]%Z 1
    = Ok ([0; 0]%Z, [1; 1]%Z).
Proof. split; reflexivity. Qed.

(** C4 (code evaluated at the failing input): whatever the edge list,
    once the two checks pass every slot is written as High; a stream
    with edges at 1µs, 2µs and 3µs rastered at 1µs per slot gives four
    High slots and no Low one. *)
Theorem raster32Edges_every_slot_high :
  raster32Edges [1000; 2000; 3000]%Z 1000 1000 (replicate 4 0%Z) (replicate 4 0%Z) 1
  = Ok (replicate 4 0%Z, replicate 4 1%Z)
  ∧ ∀ edges,
      raster32Edges edges 1000 1000 (replicate 4 0%Z) (replicate 4 0%Z) 1
      = (if (4000 <? List.last edges 0)%Z
         then Err "bcm283x: buffer is too short"
         else Ok (replicate 4 0%Z, replicate 4 1%Z)).
Proof.
  split; [reflexivity|]. intros edges. unfold raster32Edges, EdgeStream_Duration.
  change (wrap64 (1000 * Z.of_nat (length (replicate 4 0%Z)))) with 4000%Z.
  by destruct (4000 <? List.last edges 0)%Z.
Qed.

(** C5 (code evaluated at the failing input): on a Program, [raster32]
    (past its argument checks) and [raster] call themselves on the same
    stream and never return, whatever the call depth allowed; the stubs
    [raster32Program] and [rasterProgram], which do return the
    not-implemented error, are not what they call. *)
Theorem raster_program_never_returns :
  (∀ resolution fuel parts skip,
     raster32 resolution fuel (Program parts) skip [0%Z] [0%Z] 1 = None)
  ∧ (∀ fuel parts out, raster fuel (Program parts) out = None)
  ∧ (∀ parts resolution clear set mask,
       raster32Program parts resolution clear set mask = Err "bcm283x: implement me")
  ∧ (∀ parts out, rasterProgram parts out = Err "bcm283x: implement me").
Proof.
  split_and!; try done.
  - intros resolution fuel parts. induction fuel as [|fuel IH]; intros skip; [done|].
    simpl. apply IH.
  - intros fuel parts out. induction fuel as [|fuel IH]; [done|]. simpl. apply IH.
Qed.

End bcm283x_props.

(** ** Properties of the decorators *)

Module gpioutil_props.
Import gpio gpioutil props.

(** With no edge armed the poll loop only ever ends on the timeout. *)
Lemma wait_loop_NoEdge curr evs : wait_loop NoEdge curr evs ≠ Some true.
Proof.
  revert curr. induction evs as [|[n|] evs IH]; intros curr; simpl; try done.
  destruct (negb (Level_eqb n curr)); apply IH.
Qed.

(** A [true] result pinpoints the tick that produced it. *)
Lemma wait_loop_true edge curr evs :
  wait_loop edge curr evs = Some true →
  ∃ pre n post,
    evs = pre ++ Tick n :: post ∧ Forall is_tick pre ∧
    n ≠ last_seen curr pre ∧
    match edge with
    | RisingEdge => last_seen curr pre = Low ∧ n = High
    | FallingEdge => last_seen curr pre = High ∧ n = Low
    | BothEdges => True
    | NoEdge => False
    end.
Proof.
  destruct (decide (edge = NoEdge)) as [->|Hedge].
  { intros H. by apply wait_loop_NoEdge in H. }
  revert curr. induction evs as [|[n|] evs IH]; intros curr; simpl; try done.
  assert (∀ c, last_seen c [] = c) as Hnil by done.
  destruct (Level_eqb n curr) eqn:Hn; simpl.
  - (* the sample equals the level seen before: keep polling *)
    apply Bool.eqb_prop in Hn. subst n. intros H.
    destruct (IH curr H) as (pre & n & post & -> & Hpre & Hne & Hm).
    exists (Tick curr :: pre), n, post. simpl. split_and!; try done.
    by constructor.
  - (* the sample differs *)
    assert (n ≠ curr) as Hne by (intros ->; by rewrite Bool.eqb_reflx in Hn).
    assert (∀ H : wait_loop edge n evs = Some true,
              ∃ pre n0 post, Tick n :: evs = pre ++ Tick n0 :: post
                ∧ Forall is_tick pre ∧ n0 ≠ last_seen curr pre
                ∧ match edge with
                  | RisingEdge => last_seen curr pre = Low ∧ n0 = High
                  | FallingEdge => last_seen curr pre = High ∧ n0 = Low
                  | BothEdges => True
                  | NoEdge => False
                  end) as Hrec.
    { intros H. destruct (IH n H) as (pre & n0 & post & -> & Hpre & Hne0 & Hm).
      exists (Tick n :: pre), n0, post. simpl. split_and!; try done.
      by constructor. }
    destruct edge; try done.
    + destruct n; simpl; [|exact Hrec].
      intros _. exists [], true, evs. simpl. split_and!; try done.
      by destruct curr.
    + destruct n; simpl; [exact Hrec|].
      intros _. exists [], false, evs. simpl. split_and!; try done.
      by destruct curr.
    + intros _. exists [], n, evs. simpl. by split_and!.
Qed.

(** C6: [pollEdge.WaitForEdge] returns true only on a tick whose sample
    differs from the previously observed level in the armed direction
    (RisingEdge: Low then High; FallingEdge: High then Low; BothEdges: any
    difference; nothing when no edge is armed), received before any
    timeout; and armed for RisingEdge, a trace whose only transition is a
    falling one (High samples followed by Low samples, from a High start)
    never gives true. *)
Theorem pollEdge_WaitForEdge_armed_direction :
  (∀ edge curr evs,
     pollEdge_WaitForEdge edge curr evs = Some true →
     ∃ pre n post,
       evs = pre ++ Tick n :: post ∧ Forall is_tick pre ∧
       n ≠ last_seen curr pre ∧
       match edge with
       | RisingEdge => last_seen curr pre = Low ∧ n = High
       | FallingEdge => last_seen curr pre = High ∧ n = Low
       | BothEdges => True
       | NoEdge => False
       end)
  ∧ (∀ highs lows,
       pollEdge_WaitForEdge RisingEdge High
         (replicate highs (Tick High) ++ replicate lows (Tick Low))
       ≠ Some true).
Proof.
  split; [exact wait_loop_true|].
  intros highs lows. unfold pollEdge_WaitForEdge.
  induction highs as [|highs IH]; simpl; [|exact IH].
  destruct lows as [|lows]; simpl; [done|].
  induction lows as [|lows IH]; simpl; [done | exact IH].
Qed.

(** C6 at the trace High, Low, High armed for RisingEdge: the true result
    comes from the Low-to-High tick. *)
Lemma pollEdge_WaitForEdge_armed_direction_witness :
  pollEdge_WaitForEdge RisingEdge High [Tick High; Tick Low; Tick High; Die] = Some true
  ∧ ∃ pre n post,
      [Tick High; Tick Low; Tick High; Die] = pre ++ Tick n :: post
      ∧ Forall is_tick pre ∧ n ≠ last_seen High pre
      ∧ last_seen High pre = Low ∧ n = High.
Proof.
  split; [reflexivity|].
  apply (proj1 pollEdge_WaitForEdge_armed_direction RisingEdge High
           [Tick High; Tick Low; Tick High; Die]).
  reflexivity.
Defined.

(** A decorator is never the pin it wraps. *)
Lemma debounced_neq_inner p dn db e st ls lg : debounced p dn db e st ls lg ≠ p.
Proof.
  revert dn db e st ls lg.
  induction p as [a|inner IH|inner IH period edge|inner IH dn' db' e' st' ls' lg'];
    intros dn db e st ls lg H; try discriminate.
  injection H as H _ _ _ _ _ _. by apply IH in H.
Qed.

(** C7: [Debounce p 0 0 edge] returns [p] itself and no error, whatever
    the pin's [In] and [Read] would have answered; with any other pair of
    windows it returns the error of [p.In] if there is one, and otherwise a
    fresh [debounced] wrapping [p], which is not [p]. *)
Theorem Debounce_zero_windows_identity :
  (∀ p edge in_err l t, Debounce p 0 0 edge in_err l t = Ok p)
  ∧ (∀ p denoise debounce edge in_err l t,
       ¬ (denoise = 0 ∧ debounce = 0) →
       match in_err with
       | Some err => Debounce p denoise debounce edge in_err l t = Err err
       | None =>
           ∃ q, Debounce p denoise debounce edge in_err l t = Ok q
                ∧ q = debounced p denoise debounce edge l t t
                ∧ q ≠ p
       end).
Proof.
  split; [done|].
  intros p denoise debounce edge in_err l t Hnz. unfold Debounce.
  destruct ((denoise =? 0) && (debounce =? 0)) eqn:Hz.
  - apply andb_prop in Hz as [H1 H2]. lia.
  - destruct in_err as [err|]; [done|].
    eexists. split_and!; try done. apply debounced_neq_inner.
Qed.

(** C7 at a one-second denoise window over the raw pin 7. *)
Lemma Debounce_zero_windows_identity_witness :
  ¬ (1000000000 = 0 ∧ 0 = 0)
  ∧ ∃ q, Debounce (Pin 7) 1000000000 0 BothEdges None Low 0 = Ok q
         ∧ q = debounced (Pin 7) 1000000000 0 BothEdges Low 0 0
         ∧ q ≠ Pin 7.
Proof.
  split; [lia|].
  apply (proj2 Debounce_zero_windows_identity (Pin 7) 1000000000 0 BothEdges None Low 0).
  lia.
Defined.

(** C8: when the native wait times out, [debounced.WaitForEdge] returns
    false and the state is the one it started from; when the native wait
    succeeds, it returns true with [steady] set to the fresh reading, both
    timestamps set to now, and the windows and the armed edge as before. *)
Theorem debounced_WaitForEdge_frame d l n :
  debounced_WaitForEdge d false l n = (false, d)
  ∧ debounced_WaitForEdge d true l n
    = (true, DState (denoise d) (debounce d) (edge d) l n n).
Proof. by split. Qed.

(** C9: [Real] on the outermost decorator of any non-empty stack of
    debounce and poll-edge decorators returns the raw pin at the bottom. *)
Theorem Real_unwraps_every_stack l ls a :
  Real (wrap (l :: ls) (Pin a)) = Some (Pin a).
Proof.
  assert (∀ l q, Real (wrap1 l q)
                 = Some (match Real q with Some r => r | None => q end)) as Hone
    by (by intros []).
  revert l. induction ls as [|l' ls IH]; intros l.
  - by destruct l.
  - change (wrap (l :: l' :: ls) (Pin a)) with (wrap1 l (wrap (l' :: ls) (Pin a))).
    by rewrite Hone, IH.
Qed.

(** C1 (code evaluated at the failing inputs).  Times in nanoseconds.
    - denoise 1s, debounce 0, steady Low since 0s: High read at 10s and
      again at 10.001s is reported as High by the second read, one
      millisecond after it appeared, and the Low read at 10.002s is
      reported at once;
    - denoise 0, debounce 4s, steady Low since 1s: after the promotion to
      High at 2s a Low reading is still answered High at 100s and at 200s;
    - denoise 0, debounce 1s, steady Low since 0s: after the promotion to
      High at 10s the Low read one millisecond later is accepted. *)
Theorem debounced_Read_windows_not_measured_from_now :
  reads (initial 1000000000 0 BothEdges Low 0)
    [(High, 10000000000); (High, 10001000000); (Low, 10002000000)]
  = [Low; High; Low]
  ∧ reads (initial 0 4000000000 BothEdges Low 1000000000)
      [(High, 2000000000); (Low, 100000000000); (Low, 200000000000)]
    = [High; High; High]
  ∧ reads (initial 0 1000000000 BothEdges Low 0)
      [(High, 10000000000); (Low, 10001000000)]
    = [High; Low].
Proof. split_and!; reflexivity. Qed.

End gpioutil_props.

(** ** Further properties of the poll-edge emulator *)

Module pollEdge_props.
Import gpio gpioutil gpioutil_more props props_more.

(** While the loop has not returned, appending events continues it from
    the level it last compared against. *)
Lemma wait_loop_app edge curr pre rest :
  wait_loop edge curr pre = None →
  wait_loop edge curr (pre ++ rest) = wait_loop edge (curr_after edge curr pre) rest.
Proof.
  revert curr. induction pre as [|[n|] pre IH]; intros curr; simpl; try done.
  destruct (Level_eqb n curr) eqn:Hn; simpl.
  - apply Bool.eqb_prop in Hn. subst n. intros H. rewrite (IH _ H).
    by destruct edge.
  - destruct edge; simpl; try apply IH.
    + destruct (Level_eqb n High); [done | apply IH].
    + destruct (Level_eqb n Low); [done | apply IH].
    + done.
Qed.

(** X2: detection.  If, before any timeout, some tick samples a level that
    differs from the one sampled just before it, and that level is High
    when armed for RisingEdge, Low when armed for FallingEdge, or either
    when armed for BothEdges, then [pollEdge.WaitForEdge] returns true. *)
Theorem pollEdge_WaitForEdge_detects edge curr pre n post :
  Forall is_tick pre →
  n ≠ last_seen curr pre →
  match edge with
  | RisingEdge => n = High
  | FallingEdge => n = Low
  | BothEdges => True
  | NoEdge => False
  end →
  pollEdge_WaitForEdge edge curr (pre ++ Tick n :: post) = Some true.
Proof.
  unfold pollEdge_WaitForEdge. intros Hpre. revert curr.
  induction Hpre as [|[m|] pre Hm _ IH]; intros curr Hne Hedge; simpl in *.
  - destruct (Level_eqb n curr) eqn:E.
    { apply Bool.eqb_prop in E. congruence. }
    simpl. destruct edge; try done; by subst n.
  - destruct (Level_eqb m curr) eqn:E; simpl.
    + apply Bool.eqb_prop in E. subst m. by apply IH.
    + destruct edge; try done.
      * destruct (Level_eqb m High); [done | by apply IH].
      * destruct (Level_eqb m Low); [done | by apply IH].
  - done.
Qed.

Lemma pollEdge_WaitForEdge_detects_witness :
  Forall is_tick [Tick High; Tick Low]
  ∧ High ≠ last_seen High [Tick High; Tick Low]
  ∧ High = High
  ∧ pollEdge_WaitForEdge RisingEdge High ([Tick High; Tick Low] ++ Tick High :: [Die])
    = Some true.
Proof.
  assert (Forall is_tick [Tick High; Tick Low]) as H1
    by (repeat constructor).
  assert (High ≠ last_seen High [Tick High; Tick Low]) as H2 by (simpl; discriminate).
  split; [exact H1|]. split; [exact H2|]. split; [reflexivity|].
  exact (pollEdge_WaitForEdge_detects RisingEdge High [Tick High; Tick Low] High [Die]
           H1 H2 eq_refl).
Defined.

(** One tick either ends the loop with true or hands over to the rest of
    the trace with some level to compare against. *)
Lemma wait_loop_tick edge curr n :
  (∀ evs, wait_loop edge curr (Tick n :: evs) = Some true)
  ∨ (∃ c, ∀ evs, wait_loop edge curr (Tick n :: evs) = wait_loop edge c evs).
Proof.
  simpl. destruct (negb (Level_eqb n curr)); [|right; by exists curr].
  destruct edge.
  - right. by exists curr.
  - destruct (Level_eqb n High); [by left | right; by exists n].
  - destruct (Level_eqb n Low); [by left | right; by exists n].
  - by left.
Qed.

(** X3: [pollEdge.WaitForEdge] returns false exactly on a timeout signal
    that arrives while the loop is still waiting: the trace splits into a
    run of ticks on which the loop does not return, followed by the
    signal on [die]. *)
Theorem pollEdge_WaitForEdge_false_iff_timeout edge curr evs :
  pollEdge_WaitForEdge edge curr evs = Some false
  ↔ ∃ pre post, evs = pre ++ Die :: post ∧ Forall is_tick pre
                ∧ pollEdge_WaitForEdge edge curr pre = None.
Proof.
  unfold pollEdge_WaitForEdge. split.
  - revert curr. induction evs as [|[n|] evs IH]; intros curr.
    + done.
    + destruct (wait_loop_tick edge curr n) as [Htrue|[c Hc]].
      * by rewrite Htrue.
      * rewrite Hc. intros H.
        destruct (IH c H) as (pre & post & -> & Hpre & Hnone).
        exists (Tick n :: pre), post. split_and!; [done | by constructor |].
        by rewrite Hc.
    + intros _. exists [], evs. by split_and!.
  - intros (pre & post & -> & Hpre & Hnone). by rewrite (wait_loop_app _ _ _ _ Hnone).
Qed.

Lemma pollEdge_WaitForEdge_false_iff_timeout_witness :
  pollEdge_WaitForEdge RisingEdge High [Tick Low; Die; Tick High] = Some false
  ∧ ∃ pre post, [Tick Low; Die; Tick High] = pre ++ Die :: post ∧ Forall is_tick pre
                ∧ pollEdge_WaitForEdge RisingEdge High pre = None.
Proof.
  split; [reflexivity|].
  apply (proj1 (pollEdge_WaitForEdge_false_iff_timeout RisingEdge High
                  [Tick Low; Die; Tick High])).
  reflexivity.
Defined.

(** X4: a pin built by [PollEdge] carries no armed edge, [pollEdge.In] puts
    it back to [gpio.NoEdge] whatever the pull and whatever the wrapped
    pin answers, and nothing else assigns the field: after any sequence of
    [In] calls [WaitForEdge] never returns true. *)
Theorem PollEdge_never_reports_edge Period p freq
    (calls : list (Pull * option string)) curr evs :
  pollEdge_WaitForEdge
    (foldl (λ e c, (pollEdge_In e c.1 c.2).1) (armed (PollEdge Period p freq)) calls)
    curr evs
  ≠ Some true.
Proof.
  assert (∀ cs, foldl (λ e (c : Pull * option string), (pollEdge_In e c.1 c.2).1)
                  NoEdge cs = NoEdge) as Hfold
    by (induction cs as [|c cs IH]; [done | exact IH]).
  change (armed (PollEdge Period p freq)) with NoEdge. rewrite Hfold.
  apply gpioutil_props.wait_loop_NoEdge.
Qed.

(** X5: [Real] on a non-empty stack of debounce and poll-edge decorators
    over any pin [q] returns what [q.Real()] returns when [q] implements
    [gpio.RealPin], and [q] itself otherwise; over a [gpiotest.LogPinIO]
    it therefore stops at the pin the logger wraps. *)
Theorem Real_of_stack l ls q :
  Real (wrap (l :: ls) q) = Some (match Real q with Some r => r | None => q end)
  ∧ Real (wrap (l :: ls) (LogPinIO q)) = Some q.
Proof.
  assert (∀ l p, Real (wrap1 l p)
                 = Some (match Real p with Some r => r | None => p end)) as Hone
    by (by intros []).
  assert (∀ p, Real (wrap (l :: ls) p)
               = Some (match Real p with Some r => r | None => p end)) as Hall.
  { intros p. revert l. induction ls as [|l' ls IH]; intros l.
    - apply Hone.
    - change (wrap (l :: l' :: ls) p) with (wrap1 l (wrap (l' :: ls) p)).
      by rewrite Hone, IH. }
  split; [apply Hall | by rewrite Hall].
Qed.

End pollEdge_props.

(** ** Further properties of the debouncer *)

Module debounced_props.
Import gpio gpioutil gpioutil_more props props_more.

Local Ltac unfold_read :=
  unfold debounced_Read, Time_After, Time_Sub, Level_eqb, set_steady, set_lastGlitch,
    wrap64, minInt64, maxInt64 in *; simpl in *.

(** What one [Read] leaves alone, and what its result is. *)
Lemma debounced_Read_frame d l n :
  let '(r, d') := debounced_Read d l n in
  denoise d' = denoise d ∧ debounce d' = debounce d ∧ edge d' = edge d
  ∧ r = steady d'
  ∧ (steady d' ≠ steady d → steady d' = l ∧ lastSteady d' = n)
  ∧ (lastSteady d' ≠ lastSteady d → steady d' = l ∧ lastSteady d' = n).
Proof.
  destruct d as [dn db e st ls lg]. unfold_read.
  destruct (Bool.eqb l st) eqn:E; simpl.
  - destruct (ls <? lg); simpl; by split_and!.
  - destruct (0 <=? _); simpl.
    + destruct (dn <=? _); simpl; by split_and!.
    + destruct (db <=? _); simpl; by split_and!.
Qed.

(** X6: over any sequence of [Read] calls the two windows and the armed
    edge of a debounced pin stay what they were, and the level returned by
    each call is the steady level stored by that call. *)
Theorem debounced_Read_keeps_configuration d calls :
  denoise (run_reads d calls) = denoise d
  ∧ debounce (run_reads d calls) = debounce d
  ∧ edge (run_reads d calls) = edge d
  ∧ last (reads d calls) = (if calls is [] then None else Some (steady (run_reads d calls))).
Proof.
  revert d. induction calls as [|[l n] calls IH]; intros d; [done|].
  simpl. pose proof (debounced_Read_frame d l n) as Hf.
  destruct (debounced_Read d l n) as [r d'] eqn:Hr. simpl.
  destruct Hf as (H1 & H2 & H3 & H4 & _).
  destruct (IH d') as (I1 & I2 & I3 & I4).
  split_and!; try congruence.
  destruct calls as [|c calls]; [simpl; by rewrite H4|].
  rewrite <- I4. by destruct (reads d' (c :: calls)) eqn:E; [destruct c; simpl in E;
    destruct (debounced_Read d' _ _); discriminate|].
Qed.

(** X7: the lock-out of the debounce phase never ends.  Once the last
    steady change is later than the last glitch by less than the debounce
    window, every later [Read], whatever the raw level and however late,
    returns the same steady level and leaves the state as it is. *)
Theorem debounced_Read_lockout_never_ends d calls :
  lastGlitch d < lastSteady d →
  lastSteady d - lastGlitch d < debounce d →
  debounce d ≤ maxInt64 →
  reads d calls = replicate (length calls) (steady d) ∧ run_reads d calls = d.
Proof.
  intros Hlt Hwin Hmax.
  assert (∀ l n, debounced_Read d l n = (steady d, d)) as Hstep.
  { intros l n. destruct d as [dn db e st ls lg]. unfold_read.
    destruct (Bool.eqb l st); simpl.
    - destruct (Z.ltb_spec ls lg); [lia | done].
    - rewrite Z.max_r, Z.min_r by lia.
      destruct (Z.leb_spec 0 (lg - ls)); [lia|].
      rewrite Z.mod_small by lia.
      destruct (Z.leb_spec db (- (lg - ls) + 2 ^ 63 - 2 ^ 63)); [lia | done]. }
  induction calls as [|[l n] calls [IH1 IH2]]; [done|].
  simpl. rewrite Hstep. simpl. by rewrite IH1, IH2.
Qed.

Lemma debounced_Read_lockout_never_ends_witness :
  let d := DState 0 4000000000 BothEdges High 2000000000 1000000000 in
  let calls := [(Low, 100000000000); (High, 150000000000); (Low, 200000000000)] in
  lastGlitch d < lastSteady d
  ∧ lastSteady d - lastGlitch d < debounce d
  ∧ debounce d ≤ maxInt64
  ∧ reads d calls = replicate (length calls) (steady d) ∧ run_reads d calls = d.
Proof.
  intros d calls.
  assert (lastGlitch d < lastSteady d) as H1 by (simpl; lia).
  assert (lastSteady d - lastGlitch d < debounce d) as H2 by (simpl; lia).
  assert (debounce d ≤ maxInt64) as H3 by (unfold maxInt64; simpl; lia).
  split; [exact H1|]. split; [exact H2|]. split; [exact H3|].
  exact (debounced_Read_lockout_never_ends d calls H1 H2 H3).
Defined.

(** X8: a glitch that starts from a quiet filter is absorbed.  From a state
    whose two timestamps coincide, any run of reads of the other level
    taken later than that time and within the denoise window of it,
    followed by a read of the steady level, returns the steady level every
    time and leaves the state exactly as it was before the glitch. *)
Theorem debounced_Read_glitch_absorbed d ns n' :
  lastGlitch d = lastSteady d →
  denoise d ≤ maxInt64 →
  Forall (λ n, lastSteady d < n < lastSteady d + denoise d) ns →
  let calls := map (λ n, (negb (steady d), n)) ns ++ [(steady d, n')] in
  reads d calls = replicate (length calls) (steady d) ∧ run_reads d calls = d.
Proof.
  intros Heq Hmax Hns calls. subst calls.
  destruct d as [dn db e st ls lg]. simpl in *. subst lg.
  assert (∀ g, ls ≤ g → debounced_Read (DState dn db e st ls g) st n'
                        = (st, DState dn db e st ls ls)) as Hsame.
  { intros g Hg. unfold_read. rewrite Bool.eqb_reflx. simpl.
    destruct (Z.ltb_spec ls g); simpl; [done|]. by replace g with ls by lia. }
  assert (∀ g, ls ≤ g → (ns ≠ [] → g < ls + dn) →
            reads (DState dn db e st ls g) (map (λ n, (negb st, n)) ns ++ [(st, n')])
            = replicate (length (map (λ n, (negb st, n)) ns ++ [(st, n')])) st
            ∧ run_reads (DState dn db e st ls g) (map (λ n, (negb st, n)) ns ++ [(st, n')])
              = DState dn db e st ls ls) as Hgen.
  { induction Hns as [|n ns Hn _ IH]; intros g Hg Hg'.
    - simpl. by rewrite Hsame.
    - simpl.
      assert (debounced_Read (DState dn db e st ls g) (negb st) n
              = (st, DState dn db e st ls n)) as ->.
      { specialize (Hg' ltac:(done)).
        unfold_read. replace (Bool.eqb (negb st) st) with false by (by destruct st).
        simpl. rewrite Z.max_r, Z.min_r by lia.
        destruct (Z.leb_spec 0 (g - ls)); [|lia]. simpl.
        destruct (Z.leb_spec dn (g - ls)); [lia | done]. }
      simpl. destruct (IH n) as [I1 I2]; [lia | lia |]. by rewrite I1, I2. }
  apply Hgen; [lia|]. intros Hne. destruct Hns as [|n ns Hn _]; [done | lia].
Qed.

Lemma debounced_Read_glitch_absorbed_witness :
  let d := DState 1000000000 0 BothEdges High 0 0 in
  let ns := [100000000; 300000000] in
  lastGlitch d = lastSteady d
  ∧ denoise d ≤ maxInt64
  ∧ Forall (λ n, lastSteady d < n < lastSteady d + denoise d) ns
  ∧ reads d (map (λ n, (negb (steady d), n)) ns ++ [(steady d, 500000000)])
    = replicate (length (map (λ n, (negb (steady d), n)) ns ++ [(steady d, 500000000)]))
        (steady d)
  ∧ run_reads d (map (λ n, (negb (steady d), n)) ns ++ [(steady d, 500000000)]) = d.
Proof.
  intros d ns.
  assert (lastGlitch d = lastSteady d) as H1 by reflexivity.
  assert (denoise d ≤ maxInt64) as H2 by (unfold maxInt64; simpl; lia).
  assert (Forall (λ n, lastSteady d < n < lastSteady d + denoise d) ns) as H3
    by (repeat constructor; simpl; lia).
  split; [exact H1|]. split; [exact H2|]. split; [exact H3|].
  exact (debounced_Read_glitch_absorbed d ns 500000000 H1 H2 H3).
Defined.

(** X9: a [Read] of a level other than the steady one keeps the steady
    level exactly when the filter in charge reports time left: the
    denoise filter when the last glitch is not older than the last steady
    change, the debounce filter otherwise. *)
Theorem debounced_Read_holds_iff_filtering d l n :
  l ≠ steady d →
  - maxInt64 ≤ lastGlitch d - lastSteady d ≤ maxInt64 →
  denoise d ≤ maxInt64 →
  debounce d ≤ maxInt64 →
  (debounced_Read d l n).1 = steady d
  ↔ (if lastSteady d <=? lastGlitch d then isDenoising d ≠ 0 else isDebouncing d ≠ 0).
Proof.
  intros Hl Hrange Hdn Hdb.
  destruct d as [dn db e st ls lg]. unfold isDenoising, isDebouncing.
  unfold_read.
  replace (Bool.eqb l st) with false by (by destruct l, st).
  simpl. rewrite !Z.max_r, !Z.min_r by lia.
  destruct (Z.leb_spec ls lg) as [Hle|Hgt].
  - destruct (Z.leb_spec 0 (lg - ls)); [|lia]. simpl.
    destruct (Z.leb_spec dn (lg - ls)), (Z.ltb_spec (lg - ls) dn); try lia; simpl.
    + split; [intros ->|]; done.
    + rewrite Z.mod_small by lia. split; [lia|done].
  - destruct (Z.leb_spec 0 (lg - ls)); [lia|]. simpl.
    destruct (Z.leb_spec 0 (ls - lg)); [|lia]. simpl.
    rewrite (Z.mod_small (- (lg - ls) + 2 ^ 63)) by lia.
    destruct (Z.leb_spec db (- (lg - ls) + 2 ^ 63 - 2 ^ 63)),
      (Z.ltb_spec (ls - lg) db); try lia; simpl.
    + split; [intros ->|]; done.
    + rewrite Z.mod_small by lia. split; [lia|done].
Qed.

Lemma debounced_Read_holds_iff_filtering_witness :
  let d := DState 1000000000 0 BothEdges Low 0 500000000 in
  High ≠ steady d
  ∧ - maxInt64 ≤ lastGlitch d - lastSteady d ≤ maxInt64
  ∧ denoise d ≤ maxInt64
  ∧ debounce d ≤ maxInt64
  ∧ ((debounced_Read d High 700000000).1 = steady d
     ↔ (if lastSteady d <=? lastGlitch d then isDenoising d ≠ 0 else isDebouncing d ≠ 0)).
Proof.
  intros d.
  assert (High ≠ steady d) as H1 by discriminate.
  assert (- maxInt64 ≤ lastGlitch d - lastSteady d ≤ maxInt64) as H2
    by (unfold maxInt64; simpl; lia).
  assert (denoise d ≤ maxInt64) as H3 by (unfold maxInt64; simpl; lia).
  assert (debounce d ≤ maxInt64) as H4 by (unfold maxInt64; simpl; lia).
  split; [exact H1|]. split; [exact H2|]. split; [exact H3|]. split; [exact H4|].
  exact (debounced_Read_holds_iff_filtering d High 700000000 H1 H2 H3 H4).
Defined.

(** X10: [debounced.In] re-arms the filter whether or not the wrapped pin
    accepted the call: it forwards that pin's error unchanged and leaves
    the state [Debounce] would build, with the same windows, the requested
    edge, both timestamps at the new time, and as steady level the level
    its own filtered [Read] returned. *)
Theorem debounced_In_rearms d pull e in_err l n t :
  debounced_In d pull e in_err l n t
  = (initial (denoise d) (debounce d) e (debounced_Read d l n).1 t, in_err).
Proof.
  unfold debounced_In, initial.
  pose proof (debounced_Read_frame
                (DState (denoise d) (debounce d) e (steady d) (lastSteady d) (lastGlitch d))
                l n) as Hf.
  assert ((debounced_Read
             (DState (denoise d) (debounce d) e (steady d) (lastSteady d) (lastGlitch d))
             l n).1 = (debounced_Read d l n).1) as Hsame.
  { destruct d as [dn db e0 st ls lg]. unfold_read.
    destruct (Bool.eqb l st); simpl.
    - by destruct (ls <? lg).
    - destruct (0 <=? _); simpl; [by destruct (dn <=? _) | by destruct (db <=? _)]. }
  destruct (debounced_Read (DState _ _ e _ _ _) l n) as [r d'].
  simpl in *. destruct Hf as (-> & -> & -> & _). by subst r.
Qed.

(** X11: the two "time left" queries.  Each answers between zero and its
    window; both can be non-zero only while the two timestamps coincide;
    and in the state [Debounce] builds with two positive windows both are
    non-zero, each reporting its whole window. *)
Theorem isDenoising_isDebouncing_overlap :
  (∀ d, denoise d ≤ maxInt64 → 0 ≤ isDenoising d ≤ Z.max 0 (denoise d))
  ∧ (∀ d, debounce d ≤ maxInt64 → 0 ≤ isDebouncing d ≤ Z.max 0 (debounce d))
  ∧ (∀ d, isDenoising d ≠ 0 → isDebouncing d ≠ 0 → lastGlitch d = lastSteady d)
  ∧ (∀ dn db e l t, 0 < dn ≤ maxInt64 → 0 < db ≤ maxInt64 →
       isDenoising (initial dn db e l t) = dn ∧ isDebouncing (initial dn db e l t) = db).
Proof.
  unfold isDenoising, isDebouncing, initial, Time_Sub, wrap64, minInt64, maxInt64.
  split_and!.
  - intros [dn db e st ls lg] Hmax. simpl in *.
    destruct (Z.leb_spec 0 (Z.max (- 2 ^ 63) (Z.min (2 ^ 63 - 1) (lg - ls)))),
      (Z.ltb_spec (Z.max (- 2 ^ 63) (Z.min (2 ^ 63 - 1) (lg - ls))) dn);
      simpl; try lia.
    rewrite Z.mod_small by lia. lia.
  - intros [dn db e st ls lg] Hmax. simpl in *.
    destruct (Z.leb_spec 0 (Z.max (- 2 ^ 63) (Z.min (2 ^ 63 - 1) (ls - lg)))),
      (Z.ltb_spec (Z.max (- 2 ^ 63) (Z.min (2 ^ 63 - 1) (ls - lg))) db);
      simpl; try lia.
    rewrite Z.mod_small by lia. lia.
  - intros [dn db e st ls lg]. simpl.
    destruct (Z.leb_spec 0 (Z.max (- 2 ^ 63) (Z.min (2 ^ 63 - 1) (lg - ls))));
      simpl; [|done].
    destruct (Z.leb_spec 0 (Z.max (- 2 ^ 63) (Z.min (2 ^ 63 - 1) (ls - lg))));
      simpl; [|by destruct (_ <? dn)].
    intros _ _. lia.
  - intros dn db e l t Hdn Hdb. simpl. rewrite Z.sub_diag.
    replace (Z.max (- 2 ^ 63) (Z.min (2 ^ 63 - 1) 0)) with 0 by lia. simpl.
    destruct (Z.ltb_spec 0 dn), (Z.ltb_spec 0 db); try lia.
    rewrite !Z.sub_0_r, !Z.mod_small by lia. lia.
Qed.

Lemma isDenoising_isDebouncing_overlap_witness :
  let d := DState 1000000000 2000000000 BothEdges Low 5 5 in
  denoise d ≤ maxInt64
  ∧ 0 ≤ isDenoising d ≤ Z.max 0 (denoise d).
Proof.
  intros d.
  assert (denoise d ≤ maxInt64) as H by (unfold maxInt64; simpl; lia).
  split; [exact H|].
  exact (proj1 isDenoising_isDebouncing_overlap d H).
Defined.

End debounced_props.

(** ** Further properties of the rasteriser *)

Module raster_props.
Import gpio gpiostream bcm283x bcm283x_dma props props_more.

Local Open Scope nat_scope.

(** X12: [raster32] returns nil only for a non-zero mask and two non-empty
    buffers of the same length, for every stream variant; with a zero
    mask it returns the mask error for every stream variant, before
    looking at the buffers or the stream. *)
Theorem raster32_validates_arguments :
  (∀ resolution fuel s skip (clear set : list Z) mask r,
     raster32 resolution fuel s skip clear set mask = Some (Ok r) →
     mask ≠ 0%Z ∧ clear ≠ [] ∧ set ≠ [] ∧ length clear = length set)
  ∧ (∀ resolution fuel s skip (clear set : list Z),
       raster32 resolution (S fuel) s skip clear set 0 = Some (Err "bcm283x: mask is 0")).
Proof.
  split; [|done].
  intros resolution [|fuel] s skip clear set mask r; [done|].
  simpl.
  destruct (Z.eqb_spec mask 0); [done|].
  destruct (Nat.eqb_spec (length clear) 0); [done|].
  destruct (Nat.eqb_spec (length set) 0); [done|].
  destruct (Nat.eqb_spec (length clear) (length set)); simpl; [|done].
  assert (clear ≠ [] ∧ set ≠ []) as [Hc Hs] by (split; intros ->; done).
  by destruct s.
Qed.

Lemma raster32_validates_arguments_witness :
  raster32 1000 1 (BitStream [177%Z] 1000 false) 1 (replicate 8 0%Z) (replicate 8 0%Z) 1
  = Some (Ok ([0; 1; 0; 0; 1; 1; 1; 0]%Z, [1; 0; 1; 1; 0; 0; 0; 1]%Z))
  ∧ 1%Z ≠ 0%Z ∧ replicate 8 0%Z ≠ [] ∧ replicate 8 0%Z ≠ []
  ∧ length (replicate 8 0%Z) = length (replicate 8 0%Z).
Proof.
  split; [reflexivity|].
  apply (proj1 raster32_validates_arguments 1000%Z 1 (BitStream [177%Z] 1000 false) 1%Z
           (replicate 8 0%Z) (replicate 8 0%Z) 1%Z
           ([0; 1; 0; 0; 1; 1; 1; 0]%Z, [1; 0; 1; 1; 0; 0; 0; 1]%Z)).
  reflexivity.
Defined.

(** X13: [getBit] answers 0 or 1; on a byte, most-significant-first index
    [j] reads the bit that least-significant-first index [7 - j] reads; and
    an index outside 0..7 reads 0 in either order. *)
Theorem getBit_bit_order :
  (∀ b index msb, getBit b index msb = 0%Z ∨ getBit b index msb = 1%Z)
  ∧ (∀ b j, (0 ≤ j ≤ 7)%Z → getBit b j true = getBit b (7 - j) false)
  ∧ (∀ b index msb, (0 ≤ b < 256)%Z → (- 2 ^ 63 ≤ index < 2 ^ 63)%Z →
       (index < 0 ∨ 7 < index)%Z → getBit b index msb = 0%Z).
Proof.
  unfold getBit, wrapu64. split_and!.
  - intros b index msb. change 1%Z with (Z.ones 1). rewrite Z.land_ones by lia.
    change (2 ^ 1)%Z with 2%Z.
    generalize (Z.shiftr b (if msb then ((7 - index) mod 2 ^ 64)%Z
                            else (index mod 2 ^ 64)%Z)).
    intros v. pose proof (Z.mod_pos_bound v 2 ltac:(lia)).
    change (Z.ones 1) with 1%Z. lia.
  - intros b j Hj. by rewrite !Z.mod_small by lia.
  - intros b index msb Hb Hi Hout.
    set (s := if msb then ((7 - index) mod 2 ^ 64)%Z else (index mod 2 ^ 64)%Z).
    assert (8 ≤ s)%Z as Hs.
    { subst s. destruct msb.
      - destruct (Z.lt_ge_cases index 0).
        + rewrite Z.mod_small by lia. lia.
        + replace (7 - index)%Z with ((7 - index + 2 ^ 64) + (-1) * 2 ^ 64)%Z by lia.
          rewrite Z.mod_add by lia. rewrite Z.mod_small by lia. lia.
      - destruct (Z.lt_ge_cases index 0).
        + replace index with ((index + 2 ^ 64) + (-1) * 2 ^ 64)%Z at 1 by lia.
          rewrite Z.mod_add by lia. rewrite Z.mod_small by lia. lia.
        + rewrite Z.mod_small by lia. lia. }
    rewrite Z.shiftr_div_pow2 by lia.
    rewrite Z.div_small; [done|]. split; [lia|].
    apply Z.lt_le_trans with (2 ^ 8)%Z; [lia|]. apply Z.pow_le_mono_r; lia.
Qed.

Lemma getBit_bit_order_witness :
  (0 ≤ 2 ≤ 7)%Z ∧ getBit 177 2 true = getBit 177 (7 - 2) false.
Proof.
  split; [lia|].
  apply (proj1 (proj2 getBit_bit_order) 177%Z 2%Z). lia.
Defined.

(** X14: when [rasterBits] returns nil the two resolutions are equal, the
    output keeps its length and resolution, its first
    [min (len b.Bits) (len out.Bits)] bytes are those of the source and
    the bytes after them are the ones it had; when the resolutions differ
    it returns the resolution-matching error and copies nothing. *)
Theorem rasterBits_copies_prefix :
  (∀ bits res outBits outRes r,
     rasterBits bits res (outBits, outRes) = Ok r →
     outRes = res ∧ r.2 = outRes ∧ length r.1 = length outBits
     ∧ (∀ i, i < Nat.min (length bits) (length outBits) → r.1 !! i = bits !! i)
     ∧ (∀ i, length bits ≤ i → r.1 !! i = outBits !! i))
  ∧ (∀ bits res outBits outRes,
       outRes ≠ res →
       rasterBits bits res (outBits, outRes)
       = Err "bcm283x: TODO: implement resolution matching").
Proof.
  split.
  - intros bits res outBits outRes r. unfold rasterBits.
    destruct (Z.eqb_spec outRes res); simpl; [|done].
    destruct (_ <? _)%Z; [done|]. intros [= <-]. simpl. unfold bcm283x.copy.
    split_and!; try done.
    + rewrite length_app, length_take, length_drop. lia.
    + intros i Hi. rewrite lookup_app_l by (rewrite length_take; lia).
      apply lookup_take_lt. lia.
    + intros i Hi.
      rewrite lookup_app_r by (rewrite length_take; lia).
      rewrite length_take, lookup_drop.
      destruct (Nat.le_gt_cases (length bits) (length outBits)).
      * f_equal. lia.
      * rewrite !lookup_ge_None_2; [done | lia | lia].
  - intros bits res outBits outRes Hne. unfold rasterBits.
    by destruct (Z.eqb_spec outRes res).
Qed.

Lemma rasterBits_copies_prefix_witness :
  rasterBits [1; 2]%Z 1000 ([7; 8; 9]%Z, 1000%Z) = Ok ([1; 2; 9]%Z, 1000%Z)
  ∧ (1000 = 1000)%Z ∧ ([1; 2; 9]%Z, 1000%Z).2 = 1000%Z
  ∧ length ([1; 2; 9]%Z, 1000%Z).1 = length [7; 8; 9]%Z.
Proof.
  split; [reflexivity|].
  destruct (proj1 rasterBits_copies_prefix [1; 2]%Z 1000%Z [7; 8; 9]%Z 1000%Z
              ([1; 2; 9]%Z, 1000%Z) eq_refl) as (H1 & H2 & H3 & _).
  exact (conj H1 (conj H2 H3)).
Defined.

(** A loop of [a + b] rounds is a loop of [a] rounds followed by one of
    [b] rounds. *)
Lemma for_loop_app {St : Type} a b lo (body : nat → St → outcome St) s :
  for_loop (a + b) lo body s = (s' ← for_loop a lo body s ; for_loop b (lo + a) body s').
Proof.
  revert lo s. induction a as [|a IH]; intros lo s; simpl.
  - by rewrite Nat.add_0_r.
  - destruct (body lo s) as [t| |]; simpl; [|done|done].
    rewrite IH. by replace (S lo + a) with (lo + S a) by lia.
Qed.

(** The replication loop runs off the end of a buffer that lacks a word. *)
Lemma fill_panics skip mask (buf : list Z) index :
  index ≤ length buf → length buf < index + Z.to_nat skip →
  fill skip mask buf index = Panic.
Proof.
  unfold fill. generalize (Z.to_nat skip) as k. generalize 0 as lo.
  intros lo k. revert lo buf index.
  induction k as [|k IH]; intros lo buf index Hle Hlt; [lia|].
  simpl. destruct (buf !! index) as [w|] eqn:Hw; simpl; [|done].
  apply lookup_lt_Some in Hw.
  apply IH; rewrite length_insert; lia.
Qed.

Section Fit.
Variables (bits : list Z) (lsbf : bool) (skip mask : Z) (clear set : list Z).
Hypothesis Hlen : length clear = length set.

Abbreviation k := (Z.to_nat skip).
Abbreviation inv := (raster_inv bits lsbf mask k clear set).

(** The first [j0] bits of byte [i]. *)
Lemma raster_bits_prefix i b j0 st :
  bits !! i = Some b → j0 ≤ 8 →
  (8 * i + j0) * k ≤ length clear →
  inv (8 * i) st →
  ∃ st', for_loop j0 0 (raster_bit b (negb lsbf) skip mask) st = Ok st'
         ∧ inv (8 * i + j0) st'.
Proof.
  intros Hb Hj0 Hfit Hinv.
  destruct (bcm283x_props.for_loop_inv (λ j t, inv (8 * i + j) t) j0 0
              (raster_bit b (negb lsbf) skip mask) st) as (st' & Hrun & Hst').
  - by rewrite Nat.add_0_r.
  - intros j t Hj Ht.
    replace (8 * i + S j) with (S (8 * i + j)) by lia.
    apply (bcm283x_props.raster_bit_spec bits lsbf skip mask clear set Hlen);
      [|nia|done].
    rewrite bcm283x_props.getBit_testbit by lia. unfold stream_bit.
    replace ((8 * i + j) / 8) with i by (apply (Nat.div_unique _ 8 i j); lia).
    replace ((8 * i + j) mod 8) with j by (apply (Nat.mod_unique _ 8 i j); lia).
    rewrite Hb. by destruct lsbf.
  - by exists st'.
Qed.

(** The bit whose words do not fit panics. *)
Lemma raster_bit_panics b j J st :
  J * k ≤ length clear → length clear < S J * k →
  inv J st →
  raster_bit b (negb lsbf) skip mask j st = Panic.
Proof.
  intros Hle Hlt (Hidx & (Hlc & Hls & _) & _).
  unfold raster_bit. rewrite Hidx.
  destruct (negb _).
  - rewrite fill_panics; [done | lia | lia].
  - rewrite fill_panics; [done | lia | lia].
Qed.

(** X15: with buffers of equal length, [raster32Bits] on a BitStream either
    has room for the [8 * m * k] words of the
    [m = min (len clear / 8) (len bits)] bytes it rasters, and then returns
    nil having rastered exactly those bytes (a longer stream is cut), or
    lacks room, and then runs off the end of the buffers. *)
Theorem raster32Bits_fits_or_panics res :
  let m := Nat.min (length clear / 8) (length bits) in
  (8 * m * k ≤ length clear →
   ∃ clear' set',
     raster32Bits (BitStream bits res lsbf) skip clear set mask = Ok (clear', set')
     ∧ rastered bits lsbf mask k clear set (8 * m) clear' set')
  ∧ (length clear < 8 * m * k →
     raster32Bits (BitStream bits res lsbf) skip clear set mask = Panic).
Proof.
  intros m. split.
  - intros Hfit.
    destruct (bcm283x_props.raster32Bits_spec bits lsbf skip mask clear set Hlen res Hfit)
      as (clear' & set' & Hrun & _ & Hr & _).
    by exists clear', set'.
  - intros Hover. unfold raster32Bits.
    assert ((if length bits <? length clear / 8
             then length bits else length clear / 8) = m) as ->.
    { subst m. destruct (Nat.ltb_spec (length bits) (length clear / 8)); lia. }
    assert (0 < k) as Hk by nia.
    set (J0 := length clear / k).
    assert (J0 * k ≤ length clear ∧ length clear < S J0 * k) as [HJ1 HJ2].
    { subst J0. pose proof (Nat.div_mod_eq (length clear) k) as Hd.
      pose proof (Nat.mod_upper_bound (length clear) k ltac:(lia)). nia. }
    assert (J0 < 8 * m) as HJm by nia.
    set (i0 := J0 / 8). set (j0 := J0 mod 8).
    assert (J0 = 8 * i0 + j0) as HJ by (subst i0 j0; apply Nat.div_mod_eq).
    assert (j0 < 8) as Hj0 by (subst j0; apply Nat.mod_upper_bound; lia).
    assert (i0 < m) as Hi0 by lia.
    destruct (lookup_lt_is_Some_2 bits i0) as [b Hb]; [lia|].
    replace m with (i0 + S (m - S i0)) by lia.
    rewrite for_loop_app.
    destruct (bcm283x_props.for_loop_inv (λ i t, inv (8 * i) t) i0 0
                (raster_byte bits (negb lsbf) skip mask) (RState clear set 0))
      as (st & -> & Hst).
    { rewrite Nat.mul_0_r. by apply bcm283x_props.raster_inv_init. }
    { intros i t Hi Ht.
      destruct (lookup_lt_is_Some_2 bits i) as [b' Hb']; [lia|].
      apply (bcm283x_props.raster_byte_spec bits lsbf skip mask clear set Hlen i b');
        [done | nia | done]. }
    rewrite Nat.add_0_l in *. cbn [mbind outcome_bind for_loop].
    assert (raster_byte bits (negb lsbf) skip mask i0 st = Panic) as ->; [|done].
    unfold raster_byte. rewrite Hb.
    replace (for_loop 8 0 (raster_bit b (negb lsbf) skip mask) st)
      with (for_loop (j0 + S (7 - j0)) 0 (raster_bit b (negb lsbf) skip mask) st)
      by (f_equal; lia).
    rewrite for_loop_app.
    destruct (raster_bits_prefix i0 b j0 st) as (st' & -> & Hst'); [done | lia | lia | done |].
    cbn [mbind outcome_bind for_loop].
    by rewrite (raster_bit_panics b _ (8 * i0 + j0) st') by (done || lia).
Qed.

End Fit.

Lemma raster32Bits_fits_or_panics_witness :
  length (replicate 16 0%Z) = length (replicate 16 0%Z)
  ∧ length (replicate 16 0%Z)
    < 8 * Nat.min (length (replicate 16 0%Z) / 8) (length [255; 255; 255]%Z) * Z.to_nat 3
  ∧ raster32Bits (BitStream [255; 255; 255]%Z 1000 true) 3 (replicate 16 0%Z)
      (replicate 16 0%Z) 1 = Panic.
Proof.
  split; [reflexivity|]. split; [vm_compute; lia|].
  apply (proj2 (raster32Bits_fits_or_panics [255; 255; 255]%Z true 3 1
                  (replicate 16 0%Z) (replicate 16 0%Z) eq_refl 1000%Z)).
  vm_compute; lia.
Defined.

(** X16: past its two checks [raster32Edges] does not depend on the edges:
    it leaves [clear] as it is and or-s the mask into the first
    [len clear] words of [set]; when [set] is the shorter buffer it runs
    off its end instead. *)
Theorem raster32Edges_past_checks edges res resolution (clear set : list Z) mask :
  (resolution <? res)%Z = false →
  (wrap64 (resolution * Z.of_nat (length clear)) <? EdgeStream_Duration edges res)%Z
  = false →
  raster32Edges edges res resolution clear set mask
  = if decide (length clear ≤ length set)
    then Ok (clear, map (λ w, Z.lor w mask) (take (length clear) set)
                    ++ drop (length clear) set)
    else Panic.
Proof.
  intros H1 H2. unfold raster32Edges. rewrite H1, H2. cbn zeta.
  set (body := λ (i : nat) '(c, s), _).
  assert (∀ n, n ≤ length set →
            for_loop n 0 body (clear, set)
            = Ok (clear, map (λ w, Z.lor w mask) (take n set) ++ drop n set)) as Hok.
  { intros n Hn.
    destruct (bcm283x_props.for_loop_inv
                (λ i (st : list Z * list Z),
                   st = (clear, map (λ w, Z.lor w mask) (take i set) ++ drop i set))
                n 0 body (clear, set)) as (st & -> & ->); [done| |done].
    intros i t Hi ->.
    destruct (lookup_lt_is_Some_2 set i) as [w Hw]; [lia|].
    eexists. split; [|reflexivity].
    subst body. cbn beta iota. unfold or_at.
    assert ((map (λ w, Z.lor w mask) (take i set) ++ drop i set) !! i = Some w) as ->.
    { rewrite lookup_app_r by (rewrite length_map, length_take; lia).
      rewrite length_map, length_take, lookup_drop.
      replace (i + (i - i `min` length set)) with i by lia. done. }
    cbn [mbind outcome_bind]. do 2 f_equal.
    rewrite insert_app_r_alt by (rewrite length_map, length_take; lia).
    rewrite length_map, length_take.
    replace (i - i `min` length set) with 0 by lia.
    rewrite (drop_S _ _ _ Hw). simpl.
    rewrite (take_S_r _ _ _ Hw), map_app, <- app_assoc. done. }
  destruct (decide (length clear ≤ length set)) as [Hle|Hgt]; [by apply Hok|].
  replace (length clear) with (length set + S (length clear - S (length set))) at 1 by lia.
  rewrite for_loop_app, Hok by lia.
  cbn [mbind outcome_bind for_loop]. subst body. cbn beta iota. unfold or_at.
  rewrite lookup_ge_None_2; [done|].
  rewrite length_app, length_map, length_take, length_drop. lia.
Qed.

Lemma raster32Edges_past_checks_witness :
  (1000 <? 1000)%Z = false
  ∧ (wrap64 (1000 * Z.of_nat (length [0; 0; 0]%Z)) <? EdgeStream_Duration [1000; 2000]%Z 1000)%Z
    = false
  ∧ raster32Edges [1000; 2000]%Z 1000 1000 [0; 0; 0]%Z [8; 0]%Z 1 = Panic.
Proof.
  split; [reflexivity|]. split; [reflexivity|].
  exact (raster32Edges_past_checks [1000; 2000]%Z 1000 1000 [0; 0; 0]%Z [8; 0]%Z 1
           eq_refl eq_refl).
Defined.

(** *** Packing for the PCM/PWM DMA buffer *)

Lemma byte_bit b i : (0 ≤ b < 256)%Z → (i < 0 ∨ 8 ≤ i)%Z → Z.testbit b i = false.
Proof.
  intros Hb [Hi|Hi]; [by apply Z.testbit_neg_r|].
  destruct (decide (b = 0%Z)) as [->|Hnz]; [apply Z.bits_0|].
  apply Z.bits_above_log2; [lia|].
  apply Z.lt_le_trans with 8%Z; [|done].
  apply Z.log2_lt_pow2; lia.
Qed.

Lemma nth_byte bits i : bytes bits → (0 ≤ nth i bits 0%Z < 256)%Z.
Proof.
  intros Hb. rewrite nth_lookup. destruct (bits !! i) as [b|] eqn:E; simpl; [|lia].
  unfold bytes in Hb. rewrite Forall_lookup in Hb. exact (Hb i b E).
Qed.

(** Bit [c] of a packed word, counted from the top, is bit [c] of the
    stream section it holds. *)
Lemma be_word_bits bits q c :
  bytes bits → c < 32 →
  Z.testbit (be_word bits q) (31 - Z.of_nat c) = stream_bit bits false (32 * q + c).
Proof.
  intros Hb Hc. unfold be_word, stream_bit.
  pose proof (nth_byte bits (q * 4 + 0) Hb) as H0.
  pose proof (nth_byte bits (q * 4 + 1) Hb) as H1.
  pose proof (nth_byte bits (q * 4 + 2) Hb) as H2.
  pose proof (nth_byte bits (q * 4 + 3) Hb) as H3.
  set (a := c / 8). set (e := c mod 8).
  assert (c = 8 * a + e) as Hce by (subst a e; apply Nat.div_mod_eq).
  assert (e < 8) as He by (subst e; apply Nat.mod_upper_bound; lia).
  replace ((32 * q + c) / 8) with (q * 4 + a)
    by (apply (Nat.div_unique _ 8 _ e); lia).
  replace ((32 * q + c) mod 8) with e
    by (apply (Nat.mod_unique _ 8 (q * 4 + a) e); lia).
  assert (stream_tail : (match bits !! (q * 4 + a) with
                         | Some b => Z.testbit b (7 - Z.of_nat e)
                         | None => false
                         end) = Z.testbit (nth (q * 4 + a) bits 0%Z) (7 - Z.of_nat e)).
  { rewrite nth_lookup. destruct (bits !! (q * 4 + a)); simpl; [done|].
    by rewrite Z.bits_0. }
  rewrite stream_tail. clear stream_tail.
  rewrite !Z.lor_spec, !Z.shiftl_spec by lia.
  assert (a < 4) as Ha by lia.
  destruct a as [|[|[|[|a]]]]; [| | |  |lia].
  - rewrite (byte_bit _ _ H3), (byte_bit _ _ H2), (byte_bit _ _ H1) by lia.
    simpl. f_equal. lia.
  - rewrite (byte_bit _ _ H3), (byte_bit _ _ H2), (byte_bit _ _ H0) by lia.
    simpl. rewrite orb_false_r. f_equal. lia.
  - rewrite (byte_bit _ _ H3), (byte_bit _ _ H1), (byte_bit _ _ H0) by lia.
    simpl. rewrite !orb_false_r. f_equal. lia.
  - rewrite (byte_bit _ _ H2), (byte_bit _ _ H1), (byte_bit _ _ H0) by lia.
    simpl. rewrite !orb_false_r. f_equal. lia.
Qed.

Lemma drop_cons_nth (l : list Z) i :
  i < length l → drop i l = nth i l 0%Z :: drop (S i) l.
Proof.
  intros Hi. destruct (lookup_lt_is_Some_2 l i Hi) as [x Hx].
  rewrite (drop_S _ _ _ Hx). f_equal. by rewrite nth_lookup, Hx.
Qed.

Lemma full_word bits q :
  q * 4 + 3 < length bits →
  BigEndian_Uint32 (drop (q * 4) bits) = Ok (be_word bits q).
Proof.
  intros Hq. unfold be_word.
  rewrite (drop_cons_nth bits (q * 4)) by lia.
  rewrite (drop_cons_nth bits (S (q * 4))) by lia.
  rewrite (drop_cons_nth bits (S (S (q * 4)))) by lia.
  rewrite (drop_cons_nth bits (S (S (S (q * 4))))) by lia.
  simpl. rewrite Nat.add_0_r.
  replace (q * 4 + 1) with (S (q * 4)) by lia.
  replace (q * 4 + 2) with (S (S (q * 4))) by lia.
  replace (q * 4 + 3) with (S (S (S (q * 4)))) by lia.
  done.
Qed.

Lemma u32_shift_byte b s :
  (0 ≤ b < 256)%Z → (0 ≤ s ≤ 24)%Z → u32 (Z.shiftl b s) = Z.shiftl b s.
Proof.
  intros Hb Hs. unfold u32. rewrite Z.shiftl_mul_pow2 by lia.
  apply Z.mod_small. split; [nia|].
  assert (2 ^ s ≤ 2 ^ 24)%Z by (apply Z.pow_le_mono_r; lia). nia.
Qed.

Lemma tail_byte_some bits n j last :
  n * 4 + j < length bits →
  tail_byte bits n j last
  = Ok (Z.lor last (u32 (Z.shiftl (nth (n * 4 + j) bits 0%Z) (8 * (3 - Z.of_nat j))))).
Proof.
  intros Hj. unfold tail_byte.
  destruct (lookup_lt_is_Some_2 bits (n * 4 + j) Hj) as [x Hx].
  by rewrite nth_lookup, Hx.
Qed.

Lemma tail_word bits :
  bytes bits → 0 < length bits mod 4 →
  for_loop (length bits mod 4) 0 (tail_byte bits (length bits / 4)) 0%Z
  = Ok (be_word bits (length bits / 4)).
Proof.
  intros Hb Hr.
  set (n := length bits / 4). set (r := length bits mod 4).
  assert (length bits = 4 * n + r) as Hlen by (subst n r; apply Nat.div_mod_eq).
  assert (r < 4) as Hr4 by (subst r; apply Nat.mod_upper_bound; lia).
  fold r in Hr.
  pose proof (nth_byte bits (n * 4 + 0) Hb) as H0.
  pose proof (nth_byte bits (n * 4 + 1) Hb) as H1.
  pose proof (nth_byte bits (n * 4 + 2) Hb) as H2.
  unfold be_word.
  destruct r as [|[|[|[|r]]]]; [lia| | | |lia].
  - cbn [for_loop mbind outcome_bind].
    rewrite tail_byte_some by lia. cbn [mbind outcome_bind]. f_equal.
    rewrite (nth_overflow bits (n:=n * 4 + 1) 0%Z), (nth_overflow bits (n:=n * 4 + 2) 0%Z),
      (nth_overflow bits (n:=n * 4 + 3) 0%Z) by lia.
    change (8 * (3 - Z.of_nat 0))%Z with 24%Z.
    rewrite u32_shift_byte by lia. rewrite !Z.shiftl_0_l.
    by rewrite !Z.lor_0_l.
  - cbn [for_loop mbind outcome_bind].
    rewrite tail_byte_some by lia. cbn [mbind outcome_bind].
    rewrite tail_byte_some by lia. cbn [mbind outcome_bind]. f_equal.
    rewrite (nth_overflow bits (n:=n * 4 + 2) 0%Z), (nth_overflow bits (n:=n * 4 + 3) 0%Z) by lia.
    change (8 * (3 - Z.of_nat 0))%Z with 24%Z. change (8 * (3 - Z.of_nat 1))%Z with 16%Z.
    rewrite !u32_shift_byte by lia. rewrite !Z.shiftl_0_l, !Z.lor_0_l.
    apply Z.lor_comm.
  - cbn [for_loop mbind outcome_bind].
    rewrite tail_byte_some by lia. cbn [mbind outcome_bind].
    rewrite tail_byte_some by lia. cbn [mbind outcome_bind].
    rewrite tail_byte_some by lia. cbn [mbind outcome_bind]. f_equal.
    rewrite (nth_overflow bits (n:=n * 4 + 3) 0%Z) by lia.
    change (8 * (3 - Z.of_nat 0))%Z with 24%Z. change (8 * (3 - Z.of_nat 1))%Z with 16%Z.
    change (8 * (3 - Z.of_nat 2))%Z with 8%Z.
    rewrite !u32_shift_byte by lia. rewrite !Z.lor_0_l.
    rewrite (Z.lor_comm (Z.shiftl _ 8)). f_equal. apply Z.lor_comm.
Qed.

(** The loop over the whole words of [copyStreamToDMABuf]. *)
Lemma copy_words bits (dst : list Z) i :
  i ≤ length bits / 4 → i ≤ length dst →
  for_loop i 0
    (λ i dst, v ← BigEndian_Uint32 (drop (i * 4) bits) ; store dst i v) dst
  = Ok (map (be_word bits) (seq 0 i) ++ drop i dst).
Proof.
  intros Hi Hd.
  pose proof (Nat.div_mod_eq (length bits) 4) as Hlen.
  destruct (bcm283x_props.for_loop_inv
              (λ j (d : list Z), d = map (be_word bits) (seq 0 j) ++ drop j dst)
              i 0 (λ i dst, v ← BigEndian_Uint32 (drop (i * 4) bits) ; store dst i v)
              dst) as (d & -> & ->); [done| |done].
  intros j t Hj ->.
  rewrite full_word by lia. cbn [mbind outcome_bind]. unfold store.
  destruct (lookup_lt_is_Some_2 dst j) as [x Hx]; [lia|].
  assert ((map (be_word bits) (seq 0 j) ++ drop j dst) !! j = Some x) as ->.
  { rewrite lookup_app_r by (rewrite length_map, length_seq; lia).
    rewrite length_map, length_seq, lookup_drop.
    by replace (j + (j - j)) with j by lia. }
  eexists. split; [reflexivity|].
  rewrite insert_app_r_alt by (rewrite length_map, length_seq; lia).
  rewrite length_map, length_seq. replace (j - j) with 0 by lia.
  rewrite (drop_S _ _ _ Hx), seq_S, map_app, <- app_assoc. done.
Qed.

(** X17: [copyStreamToDMABuf] packs a most-significant-bit-first BitStream
    four bytes to a word, first byte on top.  When [dst] has the
    [W = ceil (len bits / 4)] words needed, it returns nil, logical bit [p]
    of the stream is bit [31 - p mod 32] of word [p / 32], the bits that pad
    the last word are 0, and the words from [W] on are untouched; when
    [dst] is shorter it runs off its end; and a least-significant-bit-first
    stream is refused with an error. *)
Theorem copyStreamToDMABuf_packs_msb_first bits res (dst : list Z) :
  bytes bits →
  let W := (length bits + 3) / 4 in
  (W ≤ length dst →
   ∃ dst',
     copyStreamToDMABuf (BitStream bits res false) dst = Ok dst'
     ∧ length dst' = length dst
     ∧ (∀ p, p < 32 * W →
          ∃ w, dst' !! (p / 32) = Some w
               ∧ Z.testbit w (31 - Z.of_nat (p mod 32)) = stream_bit bits false p)
     ∧ (∀ q, W ≤ q → dst' !! q = dst !! q))
  ∧ (length dst < W → copyStreamToDMABuf (BitStream bits res false) dst = Panic)
  ∧ copyStreamToDMABuf (BitStream bits res true) dst
    = Err "TODO(simokawa): handle BitStream.LSBF".
Proof.
  intros Hb W.
  set (n := length bits / 4). set (r := length bits mod 4).
  assert (length bits = 4 * n + r) as Hlen by (subst n r; apply Nat.div_mod_eq).
  assert (r < 4) as Hr4 by (subst r; apply Nat.mod_upper_bound; lia).
  assert (W = if 0 <? r then S n else n) as HW.
  { subst W. destruct (Nat.ltb_spec 0 r).
    - symmetry. apply (Nat.div_unique _ 4 (S n) (r - 1)); lia.
    - symmetry. apply (Nat.div_unique _ 4 n 3); lia. }
  split_and!; [| |done].
  - intros Hfit.
    assert (copyStreamToDMABuf (BitStream bits res false) dst
            = Ok (map (be_word bits) (seq 0 W) ++ drop W dst)) as Hrun.
    { unfold copyStreamToDMABuf. cbn [negb]. fold n r.
      rewrite copy_words by (destruct (0 <? r); lia).
      cbn [mbind outcome_bind]. rewrite HW.
      destruct (Nat.ltb_spec 0 r) as [Hr|Hr]; [|done].
      subst n r. rewrite tail_word by done. cbn [mbind outcome_bind]. unfold store.
      set (n := length bits / 4) in *.
      destruct (lookup_lt_is_Some_2 dst n) as [x Hx]; [lia|].
      assert ((map (be_word bits) (seq 0 n) ++ drop n dst) !! n = Some x) as ->.
      { rewrite lookup_app_r by (rewrite length_map, length_seq; lia).
        rewrite length_map, length_seq, lookup_drop.
        by replace (n + (n - n)) with n by lia. }
      f_equal.
      rewrite insert_app_r_alt by (rewrite length_map, length_seq; lia).
      rewrite length_map, length_seq. replace (n - n) with 0 by lia.
      rewrite (drop_S _ _ _ Hx), seq_S, map_app, <- app_assoc. done. }
    eexists. split; [exact Hrun|]. split_and!.
    + rewrite length_app, length_map, length_seq, length_drop. lia.
    + intros p Hp.
      assert (p / 32 < W) as Hq by (apply Nat.Div0.div_lt_upper_bound; lia).
      exists (be_word bits (p / 32)). split.
      * rewrite lookup_app_l by (rewrite length_map, length_seq; lia).
        rewrite list_lookup_fmap, lookup_seq_lt by lia. done.
      * rewrite be_word_bits by (done || (apply Nat.mod_upper_bound; lia)).
        f_equal. symmetry. apply Nat.div_mod_eq.
    + intros q Hq.
      rewrite lookup_app_r by (rewrite length_map, length_seq; lia).
      rewrite length_map, length_seq, lookup_drop. f_equal. lia.
  - intros Hshort. unfold copyStreamToDMABuf. cbn [negb]. fold n r.
    destruct (Nat.le_gt_cases n (length dst)) as [Hn|Hn].
    + (* the whole words fit, the padded last word does not *)
      rewrite copy_words by (done || lia). cbn [mbind outcome_bind].
      assert (0 < r ∧ length dst = n) as [Hr Hd]
        by (rewrite HW in Hshort; destruct (Nat.ltb_spec 0 r); lia).
      destruct (Nat.ltb_spec 0 r); [|lia].
      subst n r. rewrite tail_word by done. cbn [mbind outcome_bind]. unfold store.
      rewrite lookup_ge_None_2; [done|].
      rewrite length_app, length_map, length_seq, length_drop. lia.
    + (* a whole word does not fit *)
      replace n with (length dst + S (n - S (length dst))) at 1 by lia.
      rewrite for_loop_app, copy_words by lia.
      cbn [mbind outcome_bind for_loop].
      rewrite full_word by lia. cbn [mbind outcome_bind]. unfold store.
      rewrite lookup_ge_None_2; [done|].
      rewrite length_app, length_map, length_seq, length_drop. lia.
Qed.

Lemma copyStreamToDMABuf_packs_msb_first_witness :
  bytes [177; 1; 2; 3; 255]%Z
  ∧ (length [177; 1; 2; 3; 255]%Z + 3) / 4 ≤ length [9; 9; 9]%Z
  ∧ ∃ dst',
      copyStreamToDMABuf (BitStream [177; 1; 2; 3; 255]%Z 1000 false) [9; 9; 9]%Z = Ok dst'
      ∧ length dst' = length [9; 9; 9]%Z
      ∧ (∀ p, p < 32 * ((length [177; 1; 2; 3; 255]%Z + 3) / 4) →
           ∃ w, dst' !! (p / 32) = Some w
                ∧ Z.testbit w (31 - Z.of_nat (p mod 32))
                  = stream_bit [177; 1; 2; 3; 255]%Z false p)
      ∧ (∀ q, (length [177; 1; 2; 3; 255]%Z + 3) / 4 ≤ q → dst' !! q = [9; 9; 9]%Z !! q).
Proof.
  assert (bytes [177; 1; 2; 3; 255]%Z) as Hb by (repeat constructor; lia).
  assert ((length [177; 1; 2; 3; 255]%Z + 3) / 4 ≤ length [9; 9; 9]%Z) as Hfit
    by (vm_compute; lia).
  split; [exact Hb|]. split; [exact Hfit|].
  exact (proj1 (copyStreamToDMABuf_packs_msb_first [177; 1; 2; 3; 255]%Z 1000%Z
                  [9; 9; 9]%Z Hb) Hfit).
Defined.

End raster_props.

(** ** Properties of the bit unpacker *)

Module unpack_props.
Import gpio gpiostream bcm283x bcm283x_dma props props_more.

Lemma wrap64_small z : minInt64 ≤ z ≤ maxInt64 → wrap64 z = z.
Proof.
  unfold wrap64, minInt64, maxInt64. intros. rewrite Z.mod_small; lia.
Qed.

Lemma single_bit v b :
  0 ≤ b → Z.shiftr (Z.land v (2 ^ b)) b = Z.b2z (Z.testbit v b).
Proof.
  intros Hb. apply Z.bits_inj'. intros n Hn.
  rewrite Z.shiftr_spec, Z.land_spec, Z.pow2_bits_eqb by lia.
  destruct (decide (n = 0)) as [->|Hne].
  - rewrite Z.add_0_l, Z.eqb_refl, andb_true_r. by destruct (Z.testbit v b).
  - rewrite (proj2 (Z.eqb_neq b (n + b))) by lia. rewrite andb_false_r.
    destruct (Z.testbit v b); simpl Z.b2z; [|by rewrite Z.bits_0].
    symmetry. apply Z.bits_above_log2; simpl; lia.
Qed.

Lemma lookup_nth (d : list Z) n : (n < length d)%nat → d !! n = Some (nth n d 0).
Proof.
  intros Hn. destruct (lookup_lt_is_Some_2 d n Hn) as [x Hx].
  by rewrite (nth_lookup_Some _ _ 0 _ Hx).
Qed.

(** One of the eight reads of the loop body. *)
Lemma lane_read (d : list Z) base n off bit j :
  0 ≤ off → Z.to_nat off = n → (base + n < length d)%nat →
  0 ≤ bit < 8 → 0 ≤ j < 8 →
  lane_bit (drop base d) off (u8 (Z.shiftl 1 bit)) bit j
  = Ok (Z.shiftl (Z.b2z (Z.testbit (nth (base + n) d 0) bit)) j).
Proof.
  intros Hoff Hn Hfit Hbit Hj. unfold lane_bit, index.
  rewrite (proj2 (Z.ltb_ge off 0)) by lia.
  rewrite Hn, lookup_drop, lookup_nth by lia. cbn [mbind outcome_bind].
  f_equal. rewrite Z.shiftl_1_l.
  assert (u8 (2 ^ bit) = 2 ^ bit) as ->.
  { unfold u8. apply Z.mod_small. split; [lia|].
    apply (Z.pow_lt_mono_r 2 bit 8); lia. }
  rewrite single_bit by lia. unfold u8. apply Z.mod_small.
  rewrite Z.shiftl_mul_pow2 by lia.
  assert (2 ^ j ≤ 2 ^ 7) by (apply Z.pow_le_mono_r; lia).
  destruct (Z.testbit _ bit); simpl Z.b2z; lia.
Qed.

(** The loop body, when the eight strides are there. *)
Lemma unpack_byte_ok (d : list Z) bit skip base i (w : list Z) :
  0 ≤ bit < 8 → 0 < skip → 8 * skip ≤ maxInt64 →
  (base + 8 * Z.to_nat skip ≤ length d)%nat →
  unpack_byte (u8 (Z.shiftl 1 bit)) bit skip i (w, drop base d)
  = Ok (<[i := gathered d base (Z.to_nat skip) bit]> w,
        drop (base + 8 * Z.to_nat skip) d).
Proof.
  intros Hbit Hs Hmax Hfit. unfold maxInt64 in Hmax. unfold unpack_byte.
  rewrite !wrap64_small by (unfold minInt64, maxInt64; lia).
  rewrite (lane_read d base (Z.to_nat skip * 0) 0 bit 0) by lia.
  cbn [mbind outcome_bind].
  rewrite (lane_read d base (Z.to_nat skip * 1) (skip * 1) bit 1) by lia.
  cbn [mbind outcome_bind].
  rewrite (lane_read d base (Z.to_nat skip * 2) (skip * 2) bit 2) by lia.
  cbn [mbind outcome_bind].
  rewrite (lane_read d base (Z.to_nat skip * 3) (skip * 3) bit 3) by lia.
  cbn [mbind outcome_bind].
  rewrite (lane_read d base (Z.to_nat skip * 4) (skip * 4) bit 4) by lia.
  cbn [mbind outcome_bind].
  rewrite (lane_read d base (Z.to_nat skip * 5) (skip * 5) bit 5) by lia.
  cbn [mbind outcome_bind].
  rewrite (lane_read d base (Z.to_nat skip * 6) (skip * 6) bit 6) by lia.
  cbn [mbind outcome_bind].
  rewrite (lane_read d base (Z.to_nat skip * 7) (skip * 7) bit 7) by lia.
  cbn [mbind outcome_bind].
  unfold slice_from.
  rewrite length_drop.
  assert ((skip * 8 <? 0) || (Z.of_nat (length d - base) <? skip * 8) = false) as ->.
  { apply orb_false_intro; [apply Z.ltb_ge|apply Z.ltb_ge]; lia. }
  cbn [mbind outcome_bind]. rewrite drop_drop.
  replace (Z.to_nat (skip * 8)) with (8 * Z.to_nat skip)%nat by lia.
  reflexivity.
Qed.

(** The loop of [uint32ToBitLSBF] over its first [n] output bytes. *)
Lemma unpack_loop (w d : list Z) bit skip X n :
  0 ≤ bit < 8 → 0 < skip → 8 * skip ≤ maxInt64 →
  (n ≤ length w)%nat → (X + 8 * Z.to_nat skip * n ≤ length d)%nat →
  for_loop n 0 (unpack_byte (u8 (Z.shiftl 1 bit)) bit skip) (w, drop X d)
  = Ok (map (λ i, gathered d (X + 8 * Z.to_nat skip * i) (Z.to_nat skip) bit)
            (seq 0 n) ++ drop n w,
        drop (X + 8 * Z.to_nat skip * n) d).
Proof.
  intros Hbit Hs Hmax Hn Hfit.
  set (g := λ i : nat, gathered d (X + 8 * Z.to_nat skip * i) (Z.to_nat skip) bit).
  destruct (bcm283x_props.for_loop_inv
              (λ i (st : list Z * list Z),
                 st = (map g (seq 0 i) ++ drop i w,
                       drop (X + 8 * Z.to_nat skip * i) d))
              n 0 (unpack_byte (u8 (Z.shiftl 1 bit)) bit skip) (w, drop X d))
    as (st & -> & ->); [| |done].
  - simpl. by rewrite Nat.mul_0_r, Nat.add_0_r, drop_0.
  - intros i t Hi ->.
    rewrite unpack_byte_ok by (done || nia).
    eexists. split; [reflexivity|]. f_equal.
    + destruct (lookup_lt_is_Some_2 w i) as [x Hx]; [lia|].
      rewrite insert_app_r_alt by (rewrite length_map, length_seq; lia).
      rewrite length_map, length_seq. replace (i - i)%nat with 0%nat by lia.
      rewrite (drop_S _ _ _ Hx), seq_S, map_app, <- app_assoc. done.
    + f_equal. lia.
Qed.

(** Bit [j] of a gathered byte is the bit read at stride [j]. *)
Lemma gathered_bit (d : list Z) base skip bit j :
  (j < 8)%nat →
  Z.testbit (gathered d base skip bit) (Z.of_nat j)
  = Z.testbit (nth (base + skip * j) d 0) bit.
Proof.
  intros Hj. unfold gathered. cbv beta zeta.
  do 8 (destruct j as [|j]; [
    repeat match goal with
           | |- context [Z.testbit (nth ?n d 0) bit] =>
               generalize (Z.testbit (nth n d 0) bit); intro
           end;
    repeat match goal with b : bool |- _ => destruct b end; reflexivity |]).
  lia.
Qed.

Lemma gathered_range (d : list Z) base skip bit :
  0 ≤ gathered d base skip bit < 256.
Proof.
  unfold gathered. cbv beta zeta.
  repeat match goal with
         | |- context [Z.testbit (nth ?n d 0) bit] =>
             generalize (Z.testbit (nth n d 0) bit); intro
         end.
  repeat match goal with b : bool |- _ => destruct b end;
    vm_compute; (split; [discriminate|reflexivity]).
Qed.

(** The loop body runs off the end of [d] when fewer than eight strides
    are left. *)
Lemma unpack_byte_panics mask bit skip i (w d : list Z) :
  0 < skip → 8 * skip ≤ maxInt64 →
  (length d < 8 * Z.to_nat skip)%nat →
  unpack_byte mask bit skip i (w, d) = Panic.
Proof.
  intros Hs Hmax Hshort. unfold maxInt64 in Hmax. unfold unpack_byte.
  rewrite !wrap64_small by (unfold minInt64, maxInt64; lia).
  assert (slice_from d (skip * 8) = Panic) as ->.
  { unfold slice_from.
    rewrite (proj2 (Z.ltb_lt (Z.of_nat (length d)) (skip * 8))) by lia.
    by rewrite orb_true_r. }
  unfold lane_bit, index.
  repeat match goal with
         | |- context [if ?z <? 0 then _ else _] =>
             rewrite (proj2 (Z.ltb_ge z 0)) by lia
         end.
  repeat (match goal with
          | |- context [d !! ?n] => destruct (d !! n)
          end; cbn [mbind outcome_bind]; try done).
Qed.

Lemma unpack_bit bit :
  0 ≤ bit < 256 → u8 (bit - u8 (8 * (bit / 8))) = bit mod 8.
Proof.
  intros Hbit.
  assert (0 ≤ bit / 8 < 32)
    by (split; [apply Z.div_pos|apply Z.div_lt_upper_bound]; lia).
  unfold u8. rewrite (Z.mod_small (8 * (bit / 8))) by lia.
  rewrite <- Z.mod_eq by lia. apply Z.mod_small.
  pose proof (Z.mod_pos_bound bit 8 ltac:(lia)).
  change (2 ^ 8) with 256. lia.
Qed.

(** The whole of [uint32ToBitLSBF], when [d] is long enough. *)
Lemma uint32ToBitLSBF_run (w d : list Z) bit skip :
  0 ≤ bit < 256 → 0 < skip → 8 * skip ≤ maxInt64 →
  bit / 8 + 8 * skip * Z.of_nat (length w) ≤ Z.of_nat (length d) →
  uint32ToBitLSBF w d bit skip
  = Ok (map (λ i, gathered d (Z.to_nat (bit / 8) + 8 * Z.to_nat skip * i)
                    (Z.to_nat skip) (bit mod 8))
            (seq 0 (length w))).
Proof.
  intros Hbit Hs Hmax Hfit.
  assert (0 ≤ bit / 8) by (apply Z.div_pos; lia).
  pose proof (Z.mod_pos_bound bit 8 ltac:(lia)) as Hb8.
  unfold uint32ToBitLSBF, slice_from.
  assert ((bit / 8 <? 0) || (Z.of_nat (length d) <? bit / 8) = false) as ->.
  { apply orb_false_intro; apply Z.ltb_ge; nia. }
  cbn [mbind outcome_bind]. rewrite unpack_bit by done.
  rewrite (unpack_loop w d (bit mod 8) skip _ (length w)) by (done || nia).
  cbn [mbind outcome_bind fst]. by rewrite drop_all, app_nil_r.
Qed.

(** X18: [uint32ToBitLSBF] gathers one bit lane.  With a positive stride
    [skip], [x = bit / 8] and [x + 8 * skip * len(w)] elements in [d], it
    returns with every [w[i]] a byte whose bit [j] is bit [bit mod 8] of
    [d[x + skip * (8 * i + j)]]; with fewer elements in [d] it runs off the
    end of the slice, the last [d = d[skip*8:]] included. *)
Theorem uint32ToBitLSBF_gathers_or_panics (w d : list Z) bit skip :
  0 ≤ bit < 256 → 0 < skip → 8 * skip ≤ maxInt64 →
  let need := bit / 8 + 8 * skip * Z.of_nat (length w) in
  (need ≤ Z.of_nat (length d) →
   ∃ w',
     uint32ToBitLSBF w d bit skip = Ok w'
     ∧ length w' = length w
     ∧ ∀ i j, (i < length w)%nat → 0 ≤ j < 8 →
         ∃ v b,
           w' !! i = Some v ∧ 0 ≤ v < 256
           ∧ d !! Z.to_nat (bit / 8 + skip * (8 * Z.of_nat i + j)) = Some b
           ∧ Z.testbit v j = Z.testbit b (bit mod 8))
  ∧ (Z.of_nat (length d) < need → uint32ToBitLSBF w d bit skip = Panic).
Proof.
  intros Hbit Hs Hmax need.
  assert (0 ≤ bit / 8 < 32) as Hx
    by (split; [apply Z.div_pos|apply Z.div_lt_upper_bound]; lia).
  pose proof (unpack_bit bit Hbit) as Hb.
  pose proof (Z.mod_pos_bound bit 8 ltac:(lia)) as Hb8.
  set (X := Z.to_nat (bit / 8)). set (k := Z.to_nat skip).
  split.
  - intros Hfit. subst need.
    eexists. split_and!.
    + by apply uint32ToBitLSBF_run.
    + by rewrite length_map, length_seq.
    + intros i j Hi Hj. fold X k.
      exists (gathered d (X + 8 * k * i) k (bit mod 8)),
             (nth (X + 8 * k * i + k * Z.to_nat j) d 0).
      split_and!.
      * rewrite list_lookup_fmap, lookup_seq_lt by done. done.
      * apply gathered_range.
      * apply gathered_range.
      * replace (Z.to_nat (bit / 8 + skip * (8 * Z.of_nat i + j)))
          with (X + 8 * k * i + k * Z.to_nat j)%nat by (subst X k; nia).
        apply lookup_nth. subst X k. nia.
      * replace j with (Z.of_nat (Z.to_nat j)) at 1 by lia.
        apply gathered_bit. lia.
  - intros Hshort. subst need. unfold uint32ToBitLSBF, slice_from.
    destruct (Z.ltb_spec (Z.of_nat (length d)) (bit / 8)) as [Hlt|Hge].
    { by rewrite orb_true_r. }
    rewrite (proj2 (Z.ltb_ge (bit / 8) 0)) by lia.
    cbn [orb mbind outcome_bind]. rewrite Hb. fold X.
    (* the first iteration that lacks its eight strides *)
    set (i0 := ((length d - X) / (8 * k))%nat).
    assert (8 * k * i0 ≤ length d - X < 8 * k * S i0)%nat as Hi0.
    { pose proof (Nat.div_mod_eq (length d - X) (8 * k)) as E.
      pose proof (Nat.mod_upper_bound (length d - X) (8 * k) ltac:(subst k; lia)).
      fold i0 in E. nia. }
    assert (i0 < length w)%nat as Hlt by (subst X k; nia).
    replace (length w) with (i0 + S (length w - S i0))%nat at 1 by lia.
    rewrite raster_props.for_loop_app.
    rewrite (unpack_loop w d (bit mod 8) skip X i0) by (done || subst X k; nia).
    cbn [mbind outcome_bind for_loop].
    rewrite unpack_byte_panics; [done..|].
    rewrite length_drop. fold k. lia.
Qed.

Lemma uint32ToBitLSBF_gathers_or_panics_witness :
  (0 ≤ 9 < 256) ∧ 0 < 1 ∧ 8 * 1 ≤ maxInt64
  ∧ uint32ToBitLSBF [0] [0; 2; 0; 2; 2; 0; 0; 0; 2] 9 1 = Ok [141]
  ∧ uint32ToBitLSBF [0] [0; 2; 0; 2; 2; 0; 0; 0] 9 1 = Panic.
Proof.
  assert (0 ≤ 9 < 256) as Hb by lia.
  assert (0 < 1) as Hs by lia.
  assert (8 * 1 ≤ maxInt64) as Hm by (vm_compute; discriminate).
  split_and!; [done..| |].
  - reflexivity.
  - exact (proj2 (uint32ToBitLSBF_gathers_or_panics [0]
                    [0; 2; 0; 2; 2; 0; 0; 0] 9 1 Hb Hs Hm) ltac:(vm_compute; reflexivity)).
Defined.

(** Byte [x] of word [p] in the memory image of a word buffer. *)
Lemma le_bytes_lookup (ws : list Z) p x w :
  ws !! p = Some w → (x < 4)%nat →
  le_bytes ws !! (4 * p + x)%nat = Some ((w / 2 ^ (8 * Z.of_nat x)) mod 256).
Proof.
  revert p. induction ws as [|w0 ws IH]; intros p Hp Hx; [done|].
  destruct p as [|p].
  - simpl in Hp. injection Hp as ->.
    destruct x as [|[|[|[|x]]]]; try lia; simpl; try done.
    by rewrite Z.div_1_r.
  - replace (4 * S p + x)%nat with (S (S (S (S (4 * p + x))))) by lia.
    simpl. apply IH; [exact Hp|done].
Qed.

Lemma le_bytes_length (ws : list Z) : length (le_bytes ws) = (4 * length ws)%nat.
Proof. induction ws as [|w ws IH]; simpl in *; [done|lia]. Qed.

(** Bit [lane] of a word is bit [lane mod 8] of its byte [lane / 8]. *)
Lemma lane_of_byte w lane :
  0 ≤ lane →
  Z.testbit ((w / 2 ^ (8 * (lane / 8))) mod 256) (lane mod 8) = Z.testbit w lane.
Proof.
  intros Hl. pose proof (Z.mod_pos_bound lane 8 ltac:(lia)).
  assert (0 ≤ lane / 8) by (apply Z.div_pos; lia).
  change 256 with (2 ^ 8).
  rewrite Z.mod_pow2_bits_low, Z.div_pow2_bits by lia.
  f_equal. rewrite (Z.div_mod lane 8) at 3 by lia. lia.
Qed.

Lemma byte_high_bits v n : 0 ≤ v < 256 → 8 ≤ n → Z.testbit v n = false.
Proof.
  intros Hv Hn. destruct (decide (v = 0)) as [->|Hne]; [apply Z.bits_0|].
  apply Z.bits_above_log2; [lia|].
  apply (Z.lt_le_trans _ 8); [|done]. apply Z.log2_lt_pow2; lia.
Qed.

(** X19: round trip of [raster32Bits] and [uint32ToBitLSBF].  Rastering a
    least-significant-bit-first BitStream on lane [lane] at [k] words per
    bit into buffers whose [set] words have that lane clear, then reading
    lane [lane] back from the bytes of the [set] buffer at a stride of
    [4 * k] bytes, gives the bytes of the stream back, provided the unpacker
    has the [lane / 8] bytes of slack that its last reslice needs. *)
Theorem raster32Bits_uint32ToBitLSBF_round_trip
    (bits : list Z) res k (clear set : list Z) lane (w : list Z) :
  bytes bits → 0 < k → 32 * k ≤ maxInt64 → 0 ≤ lane < 32 →
  length clear = length set →
  (8 * length bits * Z.to_nat k ≤ length set)%nat →
  lane_free (2 ^ lane) set →
  length w = length bits →
  lane / 8 + 32 * k * Z.of_nat (length bits) ≤ 4 * Z.of_nat (length set) →
  ∃ clear' set',
    raster32Bits (BitStream bits res true) k clear set (2 ^ lane) = Ok (clear', set')
    ∧ uint32ToBitLSBF w (le_bytes set') lane (4 * k) = Ok bits.
Proof.
  intros Hbytes Hk Hmax Hlane Hlen Hfit Hfree Hw Hslack.
  assert (Nat.min (length clear / 8) (length bits) = length bits) as Hm.
  { apply Nat.min_r. apply Nat.div_le_lower_bound; [lia|]. nia. }
  destruct (bcm283x_props.raster32Bits_spec bits true k (2 ^ lane) clear set Hlen res)
    as (clear' & set' & Hrun & _ & (_ & Hls & Hin & _) & _).
  { rewrite Hm, Hlen. lia. }
  rewrite Hm in Hin. simpl in Hls.
  exists clear', set'. split; [exact Hrun|].
  assert (0 ≤ lane / 8 < 4) as Hx
    by (split; [apply Z.div_pos|apply Z.div_lt_upper_bound]; lia).
  pose proof (Z.mod_pos_bound lane 8 ltac:(lia)) as Hb8.
  rewrite uint32ToBitLSBF_run
    by (rewrite ?le_bytes_length, ?Hls, ?Hw; lia).
  f_equal. rewrite Hw. apply list_eq. intros i.
  destruct (bits !! i) as [b|] eqn:Hb.
  2:{ apply lookup_ge_None_1 in Hb. apply lookup_ge_None_2.
      by rewrite length_map, length_seq. }
  pose proof (lookup_lt_Some _ _ _ Hb) as Hi.
  rewrite list_lookup_fmap, lookup_seq_lt by done.
  cbn [fmap option_fmap option_map Nat.add]. f_equal.
  pose proof (gathered_range (le_bytes set')
                (Z.to_nat (lane / 8) + 8 * Z.to_nat (4 * k) * i)
                (Z.to_nat (4 * k)) (lane mod 8)) as Hg.
  assert (0 ≤ b < 256) as Hbr.
  { unfold bytes in Hbytes. rewrite Forall_lookup in Hbytes. exact (Hbytes i b Hb). }
  apply Z.bits_inj'. intros n Hn.
  destruct (Z.lt_ge_cases n 8) as [Hn8|Hn8].
  2:{ by rewrite !byte_high_bits by done. }
  replace n with (Z.of_nat (Z.to_nat n)) by lia.
  set (j := Z.to_nat n). assert (j < 8)%nat as Hj by lia.
  rewrite gathered_bit by done.
  (* the word of logical bit [8 * i + j] *)
  set (p := ((8 * i + j) * Z.to_nat k + 0)%nat).
  assert (p < length set)%nat as Hp by (subst p; nia).
  destruct (lookup_lt_is_Some_2 set p Hp) as [w0 Hw0].
  assert (Z.testbit w0 lane = false) as Hclear.
  { unfold lane_free in Hfree. rewrite Forall_lookup in Hfree.
    specialize (Hfree p w0 Hw0). simpl in Hfree.
    pose proof (Z.land_spec w0 (2 ^ lane) lane) as E.
    rewrite Hfree, Z.bits_0, Z.pow2_bits_true, andb_true_r in E by lia. done. }
  assert (∃ w1, set' !! p = Some w1 ∧ Z.testbit w1 lane = Z.testbit b (Z.of_nat j))
    as (w1 & Hw1 & Hbit).
  { specialize (Hin (8 * i + j)%nat 0%nat ltac:(lia) ltac:(lia)). cbv zeta in Hin.
    fold p in Hin. unfold stream_bit in Hin.
    replace ((8 * i + j) / 8)%nat with i in Hin
      by (apply (Nat.div_unique _ 8 i j); lia).
    replace ((8 * i + j) mod 8)%nat with j in Hin
      by (apply (Nat.mod_unique _ 8 i j); lia).
    rewrite Hb in Hin. destruct (Z.testbit b (Z.of_nat j)).
    - destruct Hin as [Hs _]. unfold lane_or in Hs. rewrite Hw0 in Hs.
      eexists. split; [exact Hs|].
      by rewrite Z.lor_spec, Z.pow2_bits_true, orb_true_r by lia.
    - destruct Hin as [_ Hs]. rewrite Hw0 in Hs. by exists w0. }
  replace (Z.to_nat (lane / 8) + 8 * Z.to_nat (4 * k) * i + Z.to_nat (4 * k) * j)%nat
    with (4 * p + Z.to_nat (lane / 8))%nat
    by (subst p; replace (Z.to_nat (4 * k)) with (4 * Z.to_nat k)%nat by lia; nia).
  rewrite (nth_lookup_Some _ _ 0 _
             (le_bytes_lookup set' p (Z.to_nat (lane / 8)) w1 Hw1 ltac:(lia))).
  rewrite Z2Nat.id by lia. by rewrite lane_of_byte by lia.
Qed.

Lemma raster32Bits_uint32ToBitLSBF_round_trip_witness :
  ∃ clear' set',
    raster32Bits (BitStream [177; 6] 1000 true) 2 (replicate 32 0) (replicate 32 256)
      (2 ^ 3) = Ok (clear', set')
    ∧ uint32ToBitLSBF [0; 0] (le_bytes set') 3 (4 * 2) = Ok [177; 6].
Proof.
  apply (raster32Bits_uint32ToBitLSBF_round_trip [177; 6] 1000 2
           (replicate 32 0) (replicate 32 256) 3 [0; 0]).
  - repeat constructor; lia.
  - lia.
  - vm_compute. discriminate.
  - lia.
  - reflexivity.
  - vm_compute. lia.
  - repeat constructor.
  - reflexivity.
  - vm_compute. discriminate.
Defined.

End unpack_props.
